(** * Sequential Monte Carlo sampler (pymc3/step_methods/smc.py)

    A shallow embedding of the SMC step method and of [sample_smc], and the
    properties of the tempering schedule, the Metropolis kernel, the
    resampler and the start-up validation that follow from the code.

    Conventions of the embedding.
    - A NumPy float that the code only adds, multiplies, divides, compares or
      passes to [exp] / [log] is a real number ([R]); rounding error of the
      binary64 format is outside the model.  A value the code tests with
      [np.isfinite], [np.isnan] or [np.isinf] is an [np_float], which has the
      three non-finite values next to the reals.
    - A Python [int] is a [Z]; an index that only counts upwards from zero is
      a [nat].
    - A Python exception is the [Raise] case of [result].
    - Random draws are inputs: the batch returned by the proposal
      distribution and the value of [np.log(uniform())] for a Metropolis
      test come from a [random_stream], the offset [np.random.rand()] of the
      resampler is an argument. *)

From Stdlib Require Import Reals Lra Lia ZArith List String Bool Sorted.
From stdpp Require Import base list sorting.
Import ListNotations.

Local Open Scope R_scope.

(** ** Python runtime *)

Inductive exn : Type :=
| TypeError (msg : string)
| ValueError (msg : string)
| IndexError
| UnboundLocalError (name : string).

Inductive result (A : Type) : Type :=
| Ok (a : A)
| Raise (e : exn).

Arguments Ok {A} a.
Arguments Raise {A} e.

Definition bind {A B : Type} (m : result A) (k : A -> result B) : result B :=
  match m with
  | Ok a => k a
  | Raise e => Raise e
  end.

Notation "x <- m ;; k" := (bind m (fun x => k))
  (at level 100, m at next level, right associativity).

(** [seq[i]] for a non-negative index. *)
Definition getitem {A : Type} (l : list A) (i : nat) : result A :=
  match l !! i with
  | Some a => Ok a
  | None => Raise IndexError
  end.

(** A list comprehension whose element expression may raise. *)
Fixpoint comprehension {A B : Type} (f : A -> result B) (l : list A)
  : result (list B) :=
  match l with
  | [] => Ok []
  | x :: l' => y <- f x ;; ys <- comprehension f l' ;; Ok (y :: ys)
  end.

(** ** NumPy scalars and element-wise operations *)

Inductive np_float : Type :=
| Fin (r : R)
| PosInf
| NegInf
| NaN.

Definition isfinite (x : np_float) : bool :=
  match x with Fin _ => true | _ => false end.

Definition isnan (x : np_float) : bool :=
  match x with NaN => true | _ => false end.

Definition isinf (x : np_float) : bool :=
  match x with PosInf | NegInf => true | _ => false end.

(** [int(x)] and [.astype(int)]: truncation toward zero. *)
Definition py_int (x : R) : Z :=
  if Rle_dec 0 x then Zfloor x else Zceil x.

Definition astype_int (x : R) : R := IZR (py_int x).

(** Nearest integer, ties to the even neighbour ([np.round(x, 0)], and
    Python 3's [round]). *)
Definition round_half_even (x : R) : Z :=
  let f := Zfloor x in
  let d := x - IZR f in
  if Rlt_dec d (1 / 2) then f
  else if Rlt_dec (1 / 2) d then (f + 1)%Z
  else if Z.even f then f else (f + 1)%Z.

Definition np_round (x : R) : R := IZR (round_half_even x).

Definition is_integral (x : R) : Prop := exists z : Z, x = IZR z.

(** [a + b] on one-dimensional arrays, with NumPy's broadcasting of a
    one-element operand. *)
Definition np_add (a b : list R) : result (list R) :=
  if (length a =? length b)%nat then Ok (zip_with Rplus a b)
  else match a, b with
       | [x], _ => Ok (map (fun y => x + y) b)
       | _, [y] => Ok (map (fun x => x + y) a)
       | _, _ => Raise (ValueError "operands could not be broadcast together")
       end.

(** [a[mask]] for a boolean mask. *)
Fixpoint select {A : Type} (mask : list bool) (a : list A) : list A :=
  match mask, a with
  | m :: mask', x :: a' => if m then x :: select mask' a' else select mask' a'
  | _, _ => []
  end.

Definition mask_select {A : Type} (a : list A) (mask : list bool) : result (list A) :=
  if (length mask =? length a)%nat then Ok (select mask a) else Raise IndexError.

(** [a[mask] = vals], [vals] holding one value per [True] of the mask. *)
Fixpoint assign {A : Type} (mask : list bool) (a vals : list A) : list A :=
  match mask, a with
  | m :: mask', x :: a' =>
      if m then
        match vals with
        | v :: vals' => v :: assign mask' a' vals'
        | [] => x :: assign mask' a' []
        end
      else x :: assign mask' a' vals
  | _, _ => a
  end.

Definition mask_assign {A : Type} (a : list A) (mask : list bool) (vals : list A)
  : result (list A) :=
  if (length mask =? length a)%nat then Ok (assign mask a vals) else Raise IndexError.

(** ** The step object

    The attributes of an [SMC] instance that [astep] reads or writes. *)

(** [self.check_bnd] holds the constructor's flag first and the compiled
    prior log-density afterwards. *)
Inductive check_bnd_attr : Type :=
| BndFlag (b : bool)
| BndFunc (f : list R -> np_float).

(** Truth value of the attribute in [if self.check_bnd:]; a function object
    is true. *)
Definition truthy (c : check_bnd_attr) : bool :=
  match c with
  | BndFlag b => b
  | BndFunc _ => true
  end.

(** [self.check_bnd(q)]. *)
Definition call_check_bnd (c : check_bnd_attr) (q : list R) : result np_float :=
  match c with
  | BndFlag _ => Raise (TypeError "'bool' object is not callable")
  | BndFunc f => Ok (f q)
  end.

Record SMC : Type := mkSMC {
  scaling : R;
  check_bnd : check_bnd_attr;
  tune_interval : Z;
  steps_until_tune : Z;
  n_steps : Z;
  n_steps_final : Z;
  p_acc_rate : R;
  stage_sample : nat;
  accepted : Z;
  beta : R;
  stage : Z;
  chain_index : nat;
  threshold : R;
  llk_index : nat;
  discrete : list bool;
  any_discrete : bool;
  all_discrete : bool;
  logp_forw : list R -> list R;
  proposal_samples_array : list (list R);
  chain_previous_lpoint : list (list R)
}.

Definition set_scaling (v : R) (s : SMC) : SMC :=
  mkSMC v (check_bnd s) (tune_interval s) (steps_until_tune s) (n_steps s)
    (n_steps_final s) (p_acc_rate s) (stage_sample s) (accepted s) (beta s) (stage s)
    (chain_index s) (threshold s) (llk_index s) (discrete s) (any_discrete s)
    (all_discrete s) (logp_forw s) (proposal_samples_array s) (chain_previous_lpoint s).

Definition set_check_bnd (v : check_bnd_attr) (s : SMC) : SMC :=
  mkSMC (scaling s) v (tune_interval s) (steps_until_tune s) (n_steps s)
    (n_steps_final s) (p_acc_rate s) (stage_sample s) (accepted s) (beta s) (stage s)
    (chain_index s) (threshold s) (llk_index s) (discrete s) (any_discrete s)
    (all_discrete s) (logp_forw s) (proposal_samples_array s) (chain_previous_lpoint s).

Definition set_steps_until_tune (v : Z) (s : SMC) : SMC :=
  mkSMC (scaling s) (check_bnd s) (tune_interval s) v (n_steps s)
    (n_steps_final s) (p_acc_rate s) (stage_sample s) (accepted s) (beta s) (stage s)
    (chain_index s) (threshold s) (llk_index s) (discrete s) (any_discrete s)
    (all_discrete s) (logp_forw s) (proposal_samples_array s) (chain_previous_lpoint s).

Definition set_n_steps (v : Z) (s : SMC) : SMC :=
  mkSMC (scaling s) (check_bnd s) (tune_interval s) (steps_until_tune s) v
    (n_steps_final s) (p_acc_rate s) (stage_sample s) (accepted s) (beta s) (stage s)
    (chain_index s) (threshold s) (llk_index s) (discrete s) (any_discrete s)
    (all_discrete s) (logp_forw s) (proposal_samples_array s) (chain_previous_lpoint s).

Definition set_stage_sample (v : nat) (s : SMC) : SMC :=
  mkSMC (scaling s) (check_bnd s) (tune_interval s) (steps_until_tune s) (n_steps s)
    (n_steps_final s) (p_acc_rate s) v (accepted s) (beta s) (stage s)
    (chain_index s) (threshold s) (llk_index s) (discrete s) (any_discrete s)
    (all_discrete s) (logp_forw s) (proposal_samples_array s) (chain_previous_lpoint s).

Definition set_accepted (v : Z) (s : SMC) : SMC :=
  mkSMC (scaling s) (check_bnd s) (tune_interval s) (steps_until_tune s) (n_steps s)
    (n_steps_final s) (p_acc_rate s) (stage_sample s) v (beta s) (stage s)
    (chain_index s) (threshold s) (llk_index s) (discrete s) (any_discrete s)
    (all_discrete s) (logp_forw s) (proposal_samples_array s) (chain_previous_lpoint s).

Definition set_proposal_samples_array (v : list (list R)) (s : SMC) : SMC :=
  mkSMC (scaling s) (check_bnd s) (tune_interval s) (steps_until_tune s) (n_steps s)
    (n_steps_final s) (p_acc_rate s) (stage_sample s) (accepted s) (beta s) (stage s)
    (chain_index s) (threshold s) (llk_index s) (discrete s) (any_discrete s)
    (all_discrete s) (logp_forw s) v (chain_previous_lpoint s).

Definition set_chain_previous_lpoint (v : list (list R)) (s : SMC) : SMC :=
  mkSMC (scaling s) (check_bnd s) (tune_interval s) (steps_until_tune s) (n_steps s)
    (n_steps_final s) (p_acc_rate s) (stage_sample s) (accepted s) (beta s) (stage s)
    (chain_index s) (threshold s) (llk_index s) (discrete s) (any_discrete s)
    (all_discrete s) (logp_forw s) (proposal_samples_array s) v.

Definition set_beta (v : R) (s : SMC) : SMC :=
  mkSMC (scaling s) (check_bnd s) (tune_interval s) (steps_until_tune s) (n_steps s)
    (n_steps_final s) (p_acc_rate s) (stage_sample s) (accepted s) v (stage s)
    (chain_index s) (threshold s) (llk_index s) (discrete s) (any_discrete s)
    (all_discrete s) (logp_forw s) (proposal_samples_array s) (chain_previous_lpoint s).

Definition set_stage (v : Z) (s : SMC) : SMC :=
  mkSMC (scaling s) (check_bnd s) (tune_interval s) (steps_until_tune s) (n_steps s)
    (n_steps_final s) (p_acc_rate s) (stage_sample s) (accepted s) (beta s) v
    (chain_index s) (threshold s) (llk_index s) (discrete s) (any_discrete s)
    (all_discrete s) (logp_forw s) (proposal_samples_array s) (chain_previous_lpoint s).

(** The random numbers one call of [astep] may consume. *)
Record random_stream : Type := mkRandom {
  (** [self.proposal_dist(n)]: a batch of [n] unscaled deltas. *)
  proposal_dist : Z -> list (list R);
  (** [np.log(uniform())] inside [metrop_select]. *)
  log_uniform : R
}.

(** ** tune *)

Definition tune (acc_rate : R) : R :=
  let a := 1 / 9 in
  let b := 8 / 9 in
  (a + b * acc_rate) ^ 2.

(** ** SMC.astep *)

(** Line 177: [not self.steps_until_tune and self.tune_interval]. *)
Definition tuning_due (s : SMC) : bool :=
  (steps_until_tune s =? 0)%Z && negb (tune_interval s =? 0)%Z.

(** Lines 177-190: the tuning checkpoint.  [ln] and [/] are the total
    functions of the real numbers ([ln 0 = 0], [x / 0 = 0]); at an
    acceptance rate of 1 they give [n_steps = 1], which is also what NumPy
    computes from [log(0) = -inf]. *)
Definition tune_checkpoint (s : SMC) : SMC :=
  if tuning_due s then
    let acc_rate := IZR (accepted s) / IZR (tune_interval s) in
    let s1 := set_scaling (tune acc_rate) s in
    let acc_rate' :=
      if (accepted s1 =? 0)%Z then 1 / IZR (tune_interval s1) else acc_rate in
    let s2 :=
      set_n_steps (1 + Zceil (ln (p_acc_rate s1) / ln (1 - acc_rate')))%Z s1 in
    let s3 := set_steps_until_tune (tune_interval s2) s2 in
    let s4 := set_accepted 0 s3 in
    set_stage_sample 0 s4
  else s.

(** Lines 192-193: a fresh batch of proposal draws at a sub-chain boundary. *)
Definition draw_proposals (rnd : random_stream) (s : SMC) : SMC :=
  match stage_sample s with
  | O => set_proposal_samples_array (proposal_dist rnd (n_steps s)) s
  | S _ => s
  end.

(** Lines 195-207: the candidate [q], and [q0] as it is bound afterwards (the
    all-discrete branch rebinds it to its integer cast). *)
Definition candidate (s : SMC) (q0 : list R) : result (list R * list R) :=
  row <- getitem (proposal_samples_array s) (stage_sample s) ;;
  let delta := map (fun d => d * scaling s) row in
  if any_discrete s then
    if all_discrete s then
      let delta := map np_round delta in
      let q0 := map astype_int q0 in
      q <- np_add q0 delta ;;
      Ok (map astype_int q, q0)
    else
      picked <- mask_select delta (discrete s) ;;
      delta <- mask_assign delta (discrete s) (map astype_int (map np_round picked)) ;;
      q <- np_add q0 delta ;;
      q <- mask_select q (discrete s) ;;
      Ok (map astype_int q, q0)
  else
    q <- np_add q0 delta ;;
    Ok (q, q0).

(** Modelled from the spec: [metrop_select] is imported from
    [step_methods/arraystep.py], which is not among the sources.  Section 4.4
    of the specification: the candidate is accepted when a log-uniform draw
    lies below the log acceptance ratio [mr]; the function returns the
    selected point and whether it is the candidate. *)
Definition metrop_select (log_u mr : R) (q q0 : list R) : list R * bool :=
  if Rlt_dec log_u mr then (q, true) else (q0, false).

(** Lines 215-224 (and their copy at 230-239): full evaluation of the
    candidate and the Metropolis test. *)
Definition metropolis (rnd : random_stream) (s : SMC) (q q0 l0 : list R)
  : result (list R * list R * SMC) :=
  let logp := logp_forw s q in
  llk_new <- getitem logp (llk_index s) ;;
  llk_old <- getitem l0 (llk_index s) ;;
  let '(q_new, acc) :=
    metrop_select (log_uniform rnd) (beta s * (llk_new - llk_old)) q q0 in
  if acc then
    let s1 := set_accepted (accepted s + 1)%Z s in
    let s2 :=
      set_chain_previous_lpoint
        (<[chain_index s1 := logp]> (chain_previous_lpoint s1)) s1 in
    Ok (q_new, logp, s2)
  else Ok (q_new, l0, s).

(** Lines 241-246: the counters after an attempt. *)
Definition advance_counters (s : SMC) : SMC :=
  let s1 := set_steps_until_tune (steps_until_tune s - 1)%Z s in
  let s2 := set_stage_sample (S (stage_sample s1)) s1 in
  if (Z.of_nat (stage_sample s2) =? n_steps s2)%Z then set_stage_sample 0 s2 else s2.

(** Lines 195-246: one mutation attempt. *)
Definition mutate (rnd : random_stream) (s : SMC) (q0 : list R)
  : result (list R * list R * SMC) :=
  cand <- candidate s q0 ;;
  let '(q, q0') := cand in
  l0 <- getitem (chain_previous_lpoint s) (chain_index s) ;;
  out <-
    (if truthy (check_bnd s) then
       varlogp <- call_check_bnd (check_bnd s) q ;;
       if isfinite varlogp then metropolis rnd s q q0' l0
       else Ok (q0', l0, s)
     else metropolis rnd s q q0' l0) ;;
  let '(q_new, l_new, s') := out in
  Ok (q_new, l_new, advance_counters s').

Definition astep (rnd : random_stream) (s : SMC) (q0 : list R)
  : result (list R * list R * SMC) :=
  if (stage s =? 0)%Z then Ok (q0, logp_forw s q0, s)
  else mutate rnd (draw_proposals rnd (tune_checkpoint s)) q0.

(** ** SMC.__init__

    What the constructor receives once the model context, the variables and
    the compiled functions are resolved. *)

Record init_args : Type := mkInit {
  arg_n_steps : Z;
  arg_scaling : R;
  arg_p_acc_rate : R;
  arg_tune_interval : Z;
  arg_threshold : R;
  arg_likelihood_name : string;
  (** names of [out_vars], in order *)
  arg_out_varnames : list string;
  (** per variable of [vars]: [v.dtype in discrete_types] and [v.dsize] *)
  arg_vars : list (bool * nat);
  (** [logp_forw(out_vars, vars, shared)] *)
  arg_logp_forw : list R -> list R;
  (** [logp_forw([model.varlogpt], vars, shared)] *)
  arg_varlogp : list R -> np_float
}.

(** [names.index(x)] *)
Fixpoint list_index (x : string) (names : list string) : result nat :=
  match names with
  | [] => Raise (ValueError "is not in list")
  | y :: names' =>
      if String.eqb x y then Ok O
      else i <- list_index x names' ;; Ok (S i)
  end.

(** Line 161: one flag per scalar entry of the parameter vector. *)
Definition discrete_mask (vars : list (bool * nat)) : result (list bool) :=
  match vars with
  | [] => Raise (ValueError "need at least one array to concatenate")
  | _ =>
      Ok (flat_map
            (fun v => repeat (fst v) (match snd v with O => 1%nat | n => n end))
            vars)
  end.

Definition SMC_init (check_bound : bool) (a : init_args) : result SMC :=
  idx <- list_index (arg_likelihood_name a) (arg_out_varnames a) ;;
  mask <- discrete_mask (arg_vars a) ;;
  let self :=
    mkSMC (arg_scaling a)
      (BndFlag check_bound)                       (* line 145 *)
      (arg_tune_interval a) (arg_tune_interval a)
      (arg_n_steps a) (arg_n_steps a) (arg_p_acc_rate a)
      0%nat 0%Z 0 0%Z 0%nat (arg_threshold a) idx
      mask (existsb (fun d => d) mask) (forallb (fun d => d) mask)
      (arg_logp_forw a) [] [] in
  Ok (set_check_bnd (BndFunc (arg_varlogp a)) self).  (* line 167 *)

(** ** SMC.calc_beta *)

(** Line 267: [1e-6]. *)
Definition tolerance : R := 1 / 1000000.

Definition np_sum (l : list R) : R := fold_right Rplus 0 l.

(** [a.max()] *)
Definition np_max (l : list R) : result R :=
  match l with
  | [] => Raise (ValueError "zero-size array to reduction operation maximum")
  | x :: l' => Ok (fold_left Rmax l' x)
  end.

(** Lines 269-271, and 550-551 with [new_beta = 1]. *)
Definition importance_weights (new_beta old_beta : R) (likelihoods : list R)
  : result (list R) :=
  m <- np_max likelihoods ;;
  let weights_un := map (fun l => exp ((new_beta - old_beta) * (l - m))) likelihoods in
  Ok (map (fun w => w / np_sum weights_un) weights_un).

(** Line 272. *)
Definition ESS_of (weights : list R) : Z :=
  py_int (1 / np_sum (map (fun w => w ^ 2) weights)).

(** The local variables of the bisection; [new_beta] and [weights] are bound
    by the first iteration. *)
Record bisection : Type := mkBisection {
  low_beta : R;
  up_beta : R;
  last_iterate : option (R * list R)
}.

Definition bracket_width (b : bisection) : R := up_beta b - low_beta b.

(** Lines 267-279.  [None]: more than [fuel] iterations. *)
Fixpoint bisect (fuel : nat) (old_beta : R) (likelihoods : list R) (rN : Z)
  (b : bisection) : option (result bisection) :=
  if Rgt_dec (up_beta b - low_beta b) tolerance then
    match fuel with
    | O => None
    | S fuel' =>
        let new_beta := (low_beta b + up_beta b) / 2 in
        match importance_weights new_beta old_beta likelihoods with
        | Raise e => Some (Raise e)
        | Ok weights =>
            let ESS := ESS_of weights in
            let iterate := Some (new_beta, weights) in
            if (ESS =? rN)%Z then
              Some (Ok (mkBisection (low_beta b) (up_beta b) iterate))
            else if (ESS <? rN)%Z then
              bisect fuel' old_beta likelihoods rN
                (mkBisection (low_beta b) new_beta iterate)
            else
              bisect fuel' old_beta likelihoods rN
                (mkBisection new_beta (up_beta b) iterate)
        end
    end
  else Some (Ok b).

(** Line 265. *)
Definition target_ESS (likelihoods : list R) (threshold : R) : Z :=
  py_int (INR (length likelihoods) * threshold).

(** Lines 263-279: the state of the bisection when the loop is left. *)
Definition calc_beta_bisection (fuel : nat) (beta : R) (likelihoods : list R)
  (threshold : R) : option (result bisection) :=
  bisect fuel beta likelihoods (target_ESS likelihoods threshold)
    (mkBisection beta 2 None).

Definition calc_beta_fuel (fuel : nat) (beta : R) (likelihoods : list R)
  (threshold : R) : option (result (R * R * list R)) :=
  match calc_beta_bisection fuel beta likelihoods threshold with
  | None => None
  | Some (Raise e) => Some (Raise e)
  | Some (Ok b) =>
      match last_iterate b with
      | None => Some (Raise (UnboundLocalError "new_beta"))
      | Some (new_beta, weights) => Some (Ok (new_beta, beta, weights))
      end
  end.

(** A number of halvings after which a bracket that starts at
    [[old_beta, 2]] is no wider than [tolerance]. *)
Definition bisect_fuel (old_beta : R) : nat :=
  Z.to_nat (Zceil (ln ((2 - old_beta) / tolerance) / ln 2)).

Definition calc_beta (beta : R) (likelihoods : list R) (threshold : R)
  : option (result (R * R * list R)) :=
  calc_beta_fuel (bisect_fuel beta) beta likelihoods threshold.

(** ** SMC.calc_covariance *)

(** The value of [np.cov]: a zero-dimensional array for a single variable, a
    square matrix otherwise. *)
Inductive cov_array : Type :=
| Cov0d (x : np_float)
| Cov2d (rows : list (list np_float)).

Definition cov_entries (c : cov_array) : list np_float :=
  match c with
  | Cov0d x => [x]
  | Cov2d rows => concat rows
  end.

Definition atleast_2d (c : cov_array) : list (list np_float) :=
  match c with
  | Cov0d x => [[x]]
  | Cov2d rows => rows
  end.

(** [np_cov population weights] stands for
    [np.cov(population, aweights=weights, bias=False, rowvar=0)]. *)
Definition calc_covariance
  (np_cov : list (list R) -> list R -> cov_array)
  (array_population : list (list R)) (weights : list R)
  : result (list (list np_float)) :=
  let cov := np_cov array_population weights in
  if existsb isnan (cov_entries cov) || existsb isinf (cov_entries cov) then
    Raise (ValueError "Sample covariances not valid! Likely chains is too small!")
  else Ok (atleast_2d cov).

(** ** SMC.resample *)

(** [np.cumsum] *)
Fixpoint cumsum_from (acc : R) (l : list R) : list R :=
  match l with
  | [] => []
  | x :: l' => (acc + x) :: cumsum_from (acc + x) l'
  end.

Definition cumsum (l : list R) : list R := cumsum_from 0 l.

(** Line 378: the selection points. *)
Definition selection_points (chains : nat) (u0 : R) : list R :=
  map (fun k => (INR k + u0) / INR chains) (seq 0 chains).

(** Lines 381-382, [while u > cum_dist[j]: j += 1], on the part of
    [cum_dist] from position [j] on. *)
Fixpoint advance (u : R) (cum_tail : list R) (j : nat) : result nat :=
  match cum_tail with
  | [] => Raise IndexError
  | c :: rest => if Rgt_dec u c then advance u rest (S j) else Ok j
  end.

(** Lines 380-384. *)
Fixpoint count_children (us : list R) (cum_dist : list R) (j : nat)
  (N_childs : list nat) : result (list nat) :=
  match us with
  | [] => Ok N_childs
  | u :: us' =>
      j' <- advance u (drop j cum_dist) j ;;
      n <- getitem N_childs j' ;;
      count_children us' cum_dist j' (<[j' := S n]> N_childs)
  end.

(** Lines 390-391: [for j in range(indx, indx + n): outindx[j] = v]. *)
Fixpoint fill (outindx : list nat) (indx n v : nat) : result (list nat) :=
  match n with
  | O => Ok outindx
  | S n' =>
      if (indx <? length outindx)%nat
      then fill (<[indx := v]> outindx) (S indx) n' v
      else Raise IndexError
  end.

(** Lines 388-393. *)
Fixpoint expand (parents : list nat) (N_childs : list nat) (indx : nat)
  (outindx : list nat) : result (list nat) :=
  match parents with
  | [] => Ok outindx
  | i :: parents' =>
      n <- getitem N_childs i ;;
      outindx' <- (if (0 <? n)%nat then fill outindx indx n i else Ok outindx) ;;
      expand parents' N_childs (indx + n) outindx'
  end.

Definition child_counts (weights : list R) (chains : nat) (u0 : R)
  : result (list nat) :=
  count_children (selection_points chains u0) (cumsum weights) 0
    (repeat 0%nat chains).

Definition resample (weights : list R) (chains : nat) (u0 : R)
  : result (list nat) :=
  N_childs <- child_counts weights chains u0 ;;
  expand (seq 0 chains) N_childs 0 (repeat 0%nat chains).

(** ** sample_smc *)

(** A point of the parameter space, [{name: value}]. *)
Definition point : Type := list (string * list R).

(** The step object as [sample_smc] sees it: the attributes of [astep]
    ([kernel]) and the ones set between stages. *)
Record step_object : Type := mkStep {
  kernel : SMC;
  likelihood_name : string;
  population : list point;
  array_population : list (list R);
  likelihoods : list R;
  old_beta : R;
  weights : list R;
  covariance : list (list np_float);
  resampling_indexes : list nat
}.

Definition set_kernel (v : SMC) (s : step_object) : step_object :=
  mkStep v (likelihood_name s) (population s) (array_population s) (likelihoods s)
    (old_beta s) (weights s) (covariance s) (resampling_indexes s).

Definition set_population (v : list point) (s : step_object) : step_object :=
  mkStep (kernel s) (likelihood_name s) v (array_population s) (likelihoods s)
    (old_beta s) (weights s) (covariance s) (resampling_indexes s).

Definition set_array_population (v : list (list R)) (s : step_object) : step_object :=
  mkStep (kernel s) (likelihood_name s) (population s) v (likelihoods s)
    (old_beta s) (weights s) (covariance s) (resampling_indexes s).

Definition set_likelihoods (v : list R) (s : step_object) : step_object :=
  mkStep (kernel s) (likelihood_name s) (population s) (array_population s) v
    (old_beta s) (weights s) (covariance s) (resampling_indexes s).

Definition set_old_beta (v : R) (s : step_object) : step_object :=
  mkStep (kernel s) (likelihood_name s) (population s) (array_population s)
    (likelihoods s) v (weights s) (covariance s) (resampling_indexes s).

Definition set_weights (v : list R) (s : step_object) : step_object :=
  mkStep (kernel s) (likelihood_name s) (population s) (array_population s)
    (likelihoods s) (old_beta s) v (covariance s) (resampling_indexes s).

Definition set_covariance (v : list (list np_float)) (s : step_object) : step_object :=
  mkStep (kernel s) (likelihood_name s) (population s) (array_population s)
    (likelihoods s) (old_beta s) (weights s) v (resampling_indexes s).

Definition set_resampling_indexes (v : list nat) (s : step_object) : step_object :=
  mkStep (kernel s) (likelihood_name s) (population s) (array_population s)
    (likelihoods s) (old_beta s) (weights s) (covariance s) v.

(** What [sample_smc] reads from the model. *)
Record model : Type := mkModel {
  (** [var.name for var in model.deterministics] *)
  deterministics : list string;
  (** [v.name for v in step.vars] *)
  variable_names : list string
}.

(** The collaborators of [sample_smc] that are outside this file, and its
    random draws.  The argument [k] counts the passes of the stage loop. *)
Record collaborators : Type := mkCollab {
  (** [np.cov(..., aweights=..., bias=False, rowvar=0)] *)
  np_cov : list (list R) -> list R -> cov_array;
  (** [v.random(size=chains, point=start)], transformed where the variable
      is, by variable name *)
  prior_random : string -> nat -> list (list R);
  (** [stage_handler.load_atmip_params(stage, model=model)] *)
  load_atmip_params : Z -> step_object;
  (** [step.proposal_dist(chains)] of line 492 *)
  first_proposal_batch : nat -> list (list R);
  (** [_iter_parallel_chains], [load_multitrace] and [select_end_points] of
      pass [k]: population, array_population and likelihoods of the end
      points; the chain runs call [astep], which leaves [beta] and [stage]
      alone *)
  sample_stage : nat -> step_object -> list point * list (list R) * list R;
  (** the end points [get_chain_previous_lpoint] reads from the trace *)
  trace_lpoints : nat -> step_object -> list (list R);
  (** [np.random.rand()] inside [resample] of pass [k] *)
  rand : nat -> R
}.

(** [a in b] on strings. *)
Fixpoint contains (b a : string) : bool :=
  String.prefix a b ||
  match b with
  | EmptyString => false
  | String _ b' => contains b' a
  end.

(** Lines 573-590. *)
Definition _initial_population (col : collaborators) (chains : nat)
  (variables : list string) : result (list point) :=
  let init_rnd := map (fun v => (v, prior_random col v chains)) variables in
  comprehension
    (fun i =>
       comprehension (fun vr => x <- getitem (snd vr) i ;; Ok (fst vr, x)) init_rnd)
    (seq 0 chains).

(** Lines 456-472: the checks made before anything is sampled.  A supplied
    start population of the right length is stored in [step.population]. *)
Definition validate_arguments (chains : nat) (step : step_object)
  (start : option (list point)) (homepath : option string) (cores : Z)
  (m : model) : result step_object :=
  match homepath with
  | None =>
      Raise (TypeError "Argument `homepath` should be path to result_directory.")
  | Some _ =>
      if (1 <? cores)%Z && negb (Z.of_nat chains mod cores =? 0)%Z then
        Raise (TypeError "chains / cores has to be a whole number!")
      else
        step1 <-
          match start with
          | Some st =>
              if negb (length st =? chains)%nat then
                Raise (TypeError
                  "Argument `start` should have dicts equal the number of chains (`chains`)")
              else Ok (set_population st step)
          | None => Ok step
          end ;;
        if negb (existsb (fun name => contains name (likelihood_name step1))
                   (deterministics m))
        then
          Raise (TypeError
            "Model (deterministic) variables need to contain a variable {} as defined in `step`.")
        else Ok step1
  end.

(** Lines 451-493: [sample_smc] up to the stage loop.  The stage directories
    ([clean_directory], [recover_existing_results]) are left out. *)
Definition sample_smc_setup (col : collaborators) (chains : nat)
  (step : step_object) (start : option (list point)) (homepath : option string)
  (stage_arg : Z) (cores : Z) (m : model) : result step_object :=
  step1 <- validate_arguments chains step start homepath cores m ;;
  let step2 :=
    if (stage_arg =? 0)%Z then set_kernel (set_stage stage_arg (kernel step1)) step1
    else load_atmip_params col stage_arg in
  let step3 := set_resampling_indexes (seq 0 chains) step2 in
  let step4 :=
    set_kernel
      (set_proposal_samples_array (first_proposal_batch col chains) (kernel step3))
      step3 in
  pop <- _initial_population col chains (variable_names m) ;;
  Ok (set_population pop step4).

(** Line 354: the trace end points, taken at the resampled indexes. *)
Definition get_chain_previous_lpoint (rows : list (list R)) (indexes : list nat)
  : result (list (list R)) :=
  comprehension (fun i => getitem rows i) indexes.

(** Lines 497-544: one pass of the stage loop, without the stage
    directories, the dump of the parameters and the choice of the proposal
    distribution.  [None]: the bisection of [calc_beta] ran out of fuel. *)
Definition stage_pass (col : collaborators) (chains : nat) (k : nat)
  (step : step_object) : option (result step_object) :=
  let '(pop, arr, lls) := sample_stage col k step in
  let step1 := set_likelihoods lls (set_array_population arr (set_population pop step)) in
  match calc_beta (beta (kernel step1)) (likelihoods step1)
          (threshold (kernel step1)) with
  | None => None
  | Some (Raise e) => Some (Raise e)
  | Some (Ok (new_beta, old, w)) =>
      let step2 :=
        set_weights w
          (set_old_beta old (set_kernel (set_beta new_beta (kernel step1)) step1)) in
      if Rgt_dec (beta (kernel step2)) 1 then
        Some (Ok (set_kernel (set_beta 1 (kernel step2)) step2))
      else
        Some (
          cov <- calc_covariance (np_cov col) (array_population step2)
                   (weights step2) ;;
          let step3 := set_covariance cov step2 in
          idx <- resample (weights step3) chains (rand col k) ;;
          let step4 := set_resampling_indexes idx step3 in
          lps <- get_chain_previous_lpoint (trace_lpoints col k step4)
                   (resampling_indexes step4) ;;
          let step5 :=
            set_kernel (set_chain_previous_lpoint lps (kernel step4)) step4 in
          Ok (set_kernel (set_stage (stage (kernel step5) + 1)%Z (kernel step5))
                step5))
  end.

(** Lines 496-544: the stage loop.  The first component of the outcome is
    the sequence of the [Beta: ... Stage: ...] log lines, one per pass;
    [None]: more than [fuel] passes. *)
Fixpoint stage_loop (fuel : nat) (col : collaborators) (chains : nat) (k : nat)
  (log : list (R * Z)) (step : step_object)
  : option (list (R * Z) * result step_object) :=
  if Rlt_dec (beta (kernel step)) 1 then
    match fuel with
    | O => None
    | S fuel' =>
        let log' := log ++ [(beta (kernel step), stage (kernel step))] in
        match stage_pass col chains k step with
        | None => None
        | Some (Raise e) => Some (log', Raise e)
        | Some (Ok step') => stage_loop fuel' col chains (S k) log' step'
        end
    end
  else Some (log, Ok step).

(** Lines 546-555: the final stage, up to the state in which its chains
    are run.  [k] counts the passes of the stage loop; [mtrace] is the local
    variable that line 519 binds in every pass, [Some j] for the trace of
    pass [j] and [None] when the loop body was never run. *)
Definition final_stage (col : collaborators) (chains : nat) (k : nat)
  (mtrace : option nat) (step : step_object) : result step_object :=
  let step1 := set_kernel (set_stage (-1) (kernel step)) step in
  w <- importance_weights 1 (old_beta step1) (likelihoods step1) ;;
  let step2 := set_weights w step1 in
  cov <- calc_covariance (np_cov col) (array_population step2) (weights step2) ;;
  let step3 := set_covariance cov step2 in
  idx <- resample (weights step3) chains (rand col k) ;;
  let step4 := set_resampling_indexes idx step3 in
  match mtrace with
  | None => Raise (UnboundLocalError "mtrace")
  | Some j =>
      lps <- get_chain_previous_lpoint (trace_lpoints col j step4)
               (resampling_indexes step4) ;;
      Ok (set_kernel (set_chain_previous_lpoint lps (kernel step4)) step4)
  end.

(** Lines 495-555: the stage loop followed by the final stage.  Every pass
    writes one log line, so the log tells how many passes were made. *)
Definition sample_smc_stages (fuel : nat) (col : collaborators) (chains : nat)
  (step : step_object) : option (list (R * Z) * result step_object) :=
  match stage_loop fuel col chains 0 [] step with
  | None => None
  | Some (log, Raise e) => Some (log, Raise e)
  | Some (log, Ok step') =>
      Some (log,
            final_stage col chains (length log)
              (match length log with O => None | S j => Some j end) step')
  end.

(** ** Systematic resampling in the words of the specification

    Section 4.3 of the specification, for comparison with [resample]. *)

(** The smallest cumulative-weight bucket that contains the point [u]. *)
Fixpoint spec_bucket (cum_dist : list R) (u : R) : option nat :=
  match cum_dist with
  | [] => None
  | c :: rest => if Rle_dec u c then Some O else option_map S (spec_bucket rest u)
  end.

(** The child count of every source particle: the number of selection
    points [(k + u0) / chains] assigned to its bucket. *)
Definition spec_child_counts (weights : list R) (chains : nat) (u0 : R) : list nat :=
  map (fun j =>
         length (filter (fun u => spec_bucket (cumsum weights) u = Some j)
                   (selection_points chains u0)))
    (seq 0 chains).

(** The index array that lists, in order, every source particle as often as
    its child count says. *)
Definition spec_expand (N_childs : list nat) : list nat :=
  flat_map (fun i => repeat i (N_childs !!! i)) (seq 0 (length N_childs)).

(** ** Sample inputs *)

Definition sample_stream : random_stream :=
  mkRandom (fun _ => [[2 / 5; 3 / 10]]) (-1).

(** A kernel in a later stage whose tuning checkpoint is due: 3 of the last
    10 attempts were accepted. *)
Definition sample_kernel_due : SMC :=
  mkSMC 1 (BndFunc (fun _ => Fin 0)) 10 0 25 25 (1 / 1000) 0 3 (1 / 2) 1 0
    (1 / 2) 0 [false; false] false false (fun q => q) [] [[0; 0]].

(** A kernel in a later stage over one discrete and one continuous entry. *)
Definition sample_kernel_mixed : SMC :=
  mkSMC 1 (BndFunc (fun _ => Fin 0)) 0 0 1 1 (1 / 1000) 0 0 (1 / 2) 1 0
    (1 / 2) 0 [true; false] true false (fun q => q) [[2 / 5; 3 / 10]] [[0; 0]].

(** The same mask as [sample_kernel_mixed], before any batch was drawn. *)
Definition sample_init_args : init_args :=
  mkInit 1 1 (1 / 1000) 0 (1 / 2) "l_like__" ["l_like__"; "x"]%string
    [(true, 1%nat); (false, 1%nat)] (fun q => q) (fun _ => Fin 0).

(** A kernel in a later stage over two continuous entries, tuning off. *)
Definition sample_kernel_plain : SMC :=
  mkSMC 1 (BndFunc (fun _ => Fin 0)) 0 0 1 1 (1 / 1000) 0 0 (1 / 2) 1 0
    (1 / 2) 0 [false; false] false false (fun q => q) [] [[0; 0]].

(** A step object whose likelihood is named [like], at the initial stage. *)
Definition sample_step : step_object :=
  mkStep (set_stage 0 (set_beta 0 sample_kernel_plain)) "like" [] [] [] 0 [] [] [].

(** Collaborators over one variable [x]: the prior draws are 0, every stage
    ends with the log-likelihoods 0 and -1. *)
Definition sample_collaborators : collaborators :=
  mkCollab (fun _ _ => Cov0d (Fin 1))
    (fun _ chains => repeat [0] chains)
    (fun _ => sample_step)
    (fun _ => [])
    (fun _ _ => ([], [[0]; [1]], [0; -1]))
    (fun _ _ => [[0]; [0]])
    (fun _ => 1 / 2).

(** A model that declares the deterministic [my_like] and no other. *)
Definition sample_model : model := mkModel ["my_like"%string] ["x"%string].

(** A start population of one point, [x = 5]. *)
Definition sample_start : list point := [[("x"%string, [5])]].

(** A model that declares the deterministic [like]. *)
Definition sample_model_like : model := mkModel ["like"%string] ["x"%string].

(** ** Notions used in the proofs *)

(** The attributes of the step object that a call of [astep] only reads:
    the bounds function and the tempering schedule. *)
Definition frame (s : SMC) : check_bnd_attr * R * Z * R :=
  (check_bnd s, beta s, stage s, threshold s).

(** What the bisection has established about the last iterate, for a
    bracket that started as [[lo, hi]]. *)
Definition iterate_ok (old_beta : R) (likelihoods : list R) (lo hi : R)
  (it : option (R * list R)) : Prop :=
  match it with
  | None => True
  | Some (new_beta, w) =>
      lo + tolerance / 2 < new_beta < hi /\
      importance_weights new_beta old_beta likelihoods = Ok w
  end.

(** The tuning counters of a kernel that tunes: since the last checkpoint
    [tune_interval - steps_until_tune] attempts were made and [accepted] of
    them were accepted. *)
Definition counters_ok (s : SMC) : Prop :=
  (0 < tune_interval s)%Z /\ (0 <= steps_until_tune s)%Z /\
  (0 <= accepted s)%Z /\
  (accepted s + steps_until_tune s <= tune_interval s)%Z.

(** A step object on which [astep] finds every index in range, for a
    parameter vector of [dim] entries. *)
Definition kernel_ok (dim : nat) (s : SMC) : Prop :=
  (exists f, check_bnd s = BndFunc f) /\
  (tune_interval s = 0%Z \/ counters_ok s) /\
  0 < p_acc_rate s < 1 /\
  (1 <= n_steps s)%Z /\
  length (discrete s) = dim /\
  (stage_sample s <> 0%nat ->
   (Z.of_nat (stage_sample s) < n_steps s)%Z /\
   Z.of_nat (length (proposal_samples_array s)) = n_steps s /\
   Forall (fun row => length row = dim) (proposal_samples_array s)) /\
  (chain_index s < length (chain_previous_lpoint s))%nat /\
  Forall (fun l => (llk_index s < length l)%nat) (chain_previous_lpoint s) /\
  (forall q, (llk_index s < length (logp_forw s q))%nat).

(** A proposal distribution that returns as many rows as it is asked for,
    each of [dim] entries. *)
Definition stream_ok (dim : nat) (rnd : random_stream) : Prop :=
  forall n : Z,
    length (proposal_dist rnd n) = Z.to_nat n /\
    Forall (fun row => length row = dim) (proposal_dist rnd n).

(** A proposal distribution that returns [n] rows of two entries. *)
Definition sample_stream_rows : random_stream :=
  mkRandom (fun n => repeat [2 / 5; 3 / 10] (Z.to_nat n)) (-1).

(** A kernel in a later stage with one output, the log-likelihood, whose
    tuning checkpoint is due: 3 of the last 10 attempts were accepted. *)
Definition sample_kernel_tuning : SMC :=
  mkSMC 1 (BndFunc (fun _ => Fin 0)) 10 0 25 25 (1 / 1000) 0 3 (1 / 2) 1 0
    (1 / 2) 0 [false; false] false false (fun q => [np_sum q]) [] [[0]].

(** Collaborators that hand [sample_smc] what it indexes: one likelihood
    and one row of end points per chain, and an offset in [[0, 1)]. *)
Definition collaborators_ok (chains : nat) (col : collaborators) : Prop :=
  (0 < chains)%nat /\
  (forall k step, length (snd (sample_stage col k step)) = chains) /\
  (forall k step, length (trace_lpoints col k step) = chains) /\
  (forall k, 0 <= rand col k < 1).

(** A covariance estimate without [nan] or [inf], whatever the sample. *)
Definition covariance_finite (col : collaborators) : Prop :=
  forall arr w, Forall (fun x => isfinite x = true) (cov_entries (np_cov col arr w)).

(** * Properties *)

(** ** Integer conversions *)

Lemma py_int_IZR (z : Z) : py_int (IZR z) = z.
Proof.
  unfold py_int. destruct (Rle_dec 0 (IZR z)).
  - apply ZfloorZ.
  - apply Zceil_eq. lra.
Qed.

Lemma py_int_nonneg (x : R) : 0 <= x -> py_int x = Zfloor x.
Proof. intros Hx. unfold py_int. destruct (Rle_dec 0 x); [reflexivity | contradiction]. Qed.

Lemma astype_int_integral (x : R) : is_integral x -> astype_int x = x.
Proof. intros [z ->]. unfold astype_int. now rewrite py_int_IZR. Qed.

Lemma astype_int_is_integral (x : R) : is_integral (astype_int x).
Proof. now exists (py_int x). Qed.

Lemma np_round_is_integral (x : R) : is_integral (np_round x).
Proof. now exists (round_half_even x). Qed.

Lemma round_half_even_below (x : R) (z : Z) :
  IZR z <= x < IZR z + 1 / 2 -> round_half_even x = z.
Proof.
  intros Hx. unfold round_half_even.
  assert (Hf : Zfloor x = z) by (apply Zfloor_eq; lra).
  rewrite Hf. destruct (Rlt_dec (x - IZR z) (1 / 2)); [reflexivity | lra].
Qed.

Lemma round_half_even_above (x : R) (z : Z) :
  IZR z + 1 / 2 < x < IZR z + 1 -> round_half_even x = (z + 1)%Z.
Proof.
  intros Hx. unfold round_half_even.
  assert (Hf : Zfloor x = z) by (apply Zfloor_eq; lra).
  rewrite Hf. destruct (Rlt_dec (x - IZR z) (1 / 2)); [lra |].
  destruct (Rlt_dec (1 / 2) (x - IZR z)); [reflexivity | lra].
Qed.

Lemma map_astype_int_integral (l : list R) :
  Forall is_integral l -> map astype_int l = l.
Proof.
  induction 1 as [| x l Hx _ IH]; [reflexivity |].
  cbn [map]. now rewrite astype_int_integral, IH.
Qed.

(** ** tune *)

Lemma tune_0 : tune 0 = (1 / 9) ^ 2.
Proof. unfold tune. cbv zeta. f_equal. lra. Qed.

Lemma tune_1 : tune 1 = 1.
Proof. unfold tune. cbv zeta. field. Qed.

Lemma tune_increasing (x y : R) : 0 <= x -> x < y -> tune x < tune y.
Proof. intros Hx Hxy. unfold tune. cbv zeta. nra. Qed.

(** ** The step object: what the setters leave alone *)

Lemma tune_checkpoint_not_due (s : SMC) :
  tuning_due s = false -> tune_checkpoint s = s.
Proof. intros H. unfold tune_checkpoint. now rewrite H. Qed.

Lemma tune_checkpoint_frame (s : SMC) : frame (tune_checkpoint s) = frame s.
Proof. unfold tune_checkpoint. now destruct (tuning_due s). Qed.

Lemma draw_proposals_frame (rnd : random_stream) (s : SMC) :
  frame (draw_proposals rnd s) = frame s.
Proof. unfold draw_proposals. now destruct (stage_sample s). Qed.

Lemma advance_counters_frame (s : SMC) : frame (advance_counters s) = frame s.
Proof.
  unfold advance_counters. cbv zeta.
  now destruct (Z.of_nat _ =? _)%Z.
Qed.

Lemma astep_later_stage (rnd : random_stream) (s : SMC) (q0 : list R) :
  stage s <> 0%Z ->
  astep rnd s q0 = mutate rnd (draw_proposals rnd (tune_checkpoint s)) q0.
Proof.
  intros Hs. unfold astep.
  destruct (Z.eqb_spec (stage s) 0); [contradiction | reflexivity].
Qed.

(** C6: at a tuning checkpoint of a stage other than the initial one, the
    scaling becomes (1/9 + 8/9 * acc_rate)^2 with acc_rate = accepted /
    tune_interval, n_steps becomes 1 + ceil(log(p_acc_rate) / log(1 -
    acc_rate)) with acc_rate replaced by 1 / tune_interval when nothing was
    accepted, steps_until_tune is reset to tune_interval, accepted and
    stage_sample are reset to 0, and the mutation attempt of the same call
    starts from that state; tune(0) = (1/9)^2, tune(1) = 1, and tune is
    strictly increasing on [0, 1]. *)
Theorem tuning_checkpoint_resets (rnd : random_stream) (s : SMC) (q0 : list R) :
  stage s <> 0%Z ->
  steps_until_tune s = 0%Z ->
  (0 < tune_interval s)%Z ->
  let acc_rate := IZR (accepted s) / IZR (tune_interval s) in
  let acc_rate' :=
    if (accepted s =? 0)%Z then 1 / IZR (tune_interval s) else acc_rate in
  let s' := tune_checkpoint s in
  scaling s' = (1 / 9 + 8 / 9 * acc_rate) ^ 2 /\
  scaling s' = tune acc_rate /\
  n_steps s' = (1 + Zceil (ln (p_acc_rate s) / ln (1 - acc_rate')))%Z /\
  steps_until_tune s' = tune_interval s /\
  accepted s' = 0%Z /\
  stage_sample s' = 0%nat /\
  astep rnd s q0 = mutate rnd (draw_proposals rnd s') q0 /\
  tune 0 = (1 / 9) ^ 2 /\
  tune 1 = 1 /\
  (forall x y : R, 0 <= x -> x < y -> y <= 1 -> tune x < tune y).
Proof.
  intros Hstage Hdue Hint acc_rate acc_rate' s'.
  assert (Hd : tuning_due s = true).
  { unfold tuning_due. rewrite Hdue. cbn.
    destruct (Z.eqb_spec (tune_interval s) 0); [lia | reflexivity]. }
  subst s'. unfold tune_checkpoint. rewrite Hd. cbn.
  repeat split; try reflexivity.
  - rewrite astep_later_stage by assumption.
    unfold tune_checkpoint. now rewrite Hd.
  - apply tune_0.
  - apply tune_1.
  - intros x y Hx Hxy _. now apply tune_increasing.
Qed.

Lemma tuning_checkpoint_resets_witness :
  stage sample_kernel_due <> 0%Z /\
  steps_until_tune sample_kernel_due = 0%Z /\
  (0 < tune_interval sample_kernel_due)%Z /\
  scaling (tune_checkpoint sample_kernel_due) = tune (IZR 3 / IZR 10) /\
  accepted (tune_checkpoint sample_kernel_due) = 0%Z.
Proof.
  assert (H1 : stage sample_kernel_due <> 0%Z) by (cbn; lia).
  assert (H2 : steps_until_tune sample_kernel_due = 0%Z) by reflexivity.
  assert (H3 : (0 < tune_interval sample_kernel_due)%Z) by (cbn; lia).
  pose proof (tuning_checkpoint_resets sample_stream sample_kernel_due [] H1 H2 H3) as H.
  cbv zeta in H. repeat split; try assumption; apply H.
Defined.

(** ** The Metropolis kernel *)

Section KernelFields.
Variables (rnd : random_stream) (s : SMC).

Lemma prepared_fields :
  let s1 := draw_proposals rnd (tune_checkpoint s) in
  check_bnd s1 = check_bnd s /\ beta s1 = beta s /\ logp_forw s1 = logp_forw s /\
  llk_index s1 = llk_index s /\ chain_index s1 = chain_index s /\
  chain_previous_lpoint s1 = chain_previous_lpoint s /\
  discrete s1 = discrete s /\ any_discrete s1 = any_discrete s /\
  all_discrete s1 = all_discrete s.
Proof.
  cbv zeta. unfold draw_proposals, tune_checkpoint.
  destruct (tuning_due s); cbn; [tauto |].
  destruct (stage_sample s); cbn; tauto.
Qed.

Lemma advance_counters_fields :
  accepted (advance_counters s) = accepted s /\
  chain_previous_lpoint (advance_counters s) = chain_previous_lpoint s /\
  steps_until_tune (advance_counters s) = (steps_until_tune s - 1)%Z /\
  scaling (advance_counters s) = scaling s /\
  n_steps (advance_counters s) = n_steps s.
Proof.
  unfold advance_counters. cbv zeta.
  destruct (Z.of_nat _ =? _)%Z; cbn; tauto.
Qed.
End KernelFields.

Lemma metropolis_frame (rnd : random_stream) (s : SMC) (q q0 l0 : list R)
  (q_new l_new : list R) (s' : SMC) :
  metropolis rnd s q q0 l0 = Ok (q_new, l_new, s') -> frame s' = frame s.
Proof.
  unfold metropolis.
  destruct (getitem (logp_forw s q) (llk_index s)) as [a |]; [| discriminate].
  destruct (getitem l0 (llk_index s)) as [b |]; [| discriminate].
  cbn [bind]. unfold metrop_select.
  destruct (Rlt_dec _ _); intros [= _ _ <-]; reflexivity.
Qed.

(** A call of astep leaves the bounds function, beta, the stage number and
    the threshold as they are. *)
Lemma astep_frame (rnd : random_stream) (s : SMC) (q0 q_new l_new : list R)
  (s' : SMC) :
  astep rnd s q0 = Ok (q_new, l_new, s') -> frame s' = frame s.
Proof.
  unfold astep. destruct (stage s =? 0)%Z.
  { now intros [= _ _ <-]. }
  rewrite <- (tune_checkpoint_frame s).
  rewrite <- (draw_proposals_frame rnd (tune_checkpoint s)).
  generalize (draw_proposals rnd (tune_checkpoint s)). clear. intros s.
  unfold mutate.
  destruct (candidate s q0) as [[q q0'] |]; [| discriminate]. cbn [bind].
  destruct (getitem _ _) as [l0 |]; [| discriminate]. cbn [bind].
  destruct (truthy (check_bnd s)).
  - destruct (call_check_bnd _ _) as [v |]; [| discriminate]. cbn [bind].
    destruct (isfinite v).
    + destruct (metropolis rnd s q q0' l0) as [[[q1 l1] s1] |] eqn:Hm; [| discriminate].
      cbn [bind]. intros [= _ _ <-].
      rewrite advance_counters_frame. eapply metropolis_frame; eassumption.
    + cbn [bind]. intros [= _ _ <-]. apply advance_counters_frame.
  - destruct (metropolis rnd s q q0' l0) as [[[q1 l1] s1] |] eqn:Hm; [| discriminate].
    cbn [bind]. intros [= _ _ <-].
    rewrite advance_counters_frame. eapply metropolis_frame; eassumption.
Qed.

(** C2: in a stage other than the initial one, with the bounds function in
    place, a candidate whose prior log-density is finite is accepted exactly
    when the log-uniform draw lies below beta * (ll_candidate - ll_baseline);
    on acceptance the returned position and log-point are the candidate's,
    the chain's baseline is replaced by the candidate's log-point and the
    acceptance counter (as the tuning checkpoint of the same call left it)
    grows by one; otherwise, and when the prior log-density is not finite,
    the previous position, its log-point, the baseline and the counter are
    kept; in every case the call returns. *)
Theorem astep_accept_reject (rnd : random_stream) (s : SMC) (q0 : list R)
  (f : list R -> np_float) (q q0' l0 : list R) (llk_new llk_old : R) :
  stage s <> 0%Z ->
  check_bnd s = BndFunc f ->
  let s1 := draw_proposals rnd (tune_checkpoint s) in
  candidate s1 q0 = Ok (q, q0') ->
  (any_discrete s = true -> all_discrete s = true -> Forall is_integral q0) ->
  chain_previous_lpoint s !! chain_index s = Some l0 ->
  logp_forw s q !! llk_index s = Some llk_new ->
  l0 !! llk_index s = Some llk_old ->
  exists (q_new l_new : list R) (s' : SMC),
    astep rnd s q0 = Ok (q_new, l_new, s') /\
    (isfinite (f q) = true /\ log_uniform rnd < beta s * (llk_new - llk_old) ->
       q_new = q /\ l_new = logp_forw s q /\
       accepted s' = (accepted s1 + 1)%Z /\
       chain_previous_lpoint s' =
         <[chain_index s := logp_forw s q]> (chain_previous_lpoint s)) /\
    (~ (isfinite (f q) = true /\ log_uniform rnd < beta s * (llk_new - llk_old)) ->
       q_new = q0 /\ l_new = l0 /\
       accepted s' = accepted s1 /\
       chain_previous_lpoint s' = chain_previous_lpoint s).
Proof.
  intros Hstage Hbnd s1 Hcand Hint Hl0 Hnew Hold.
  destruct (prepared_fields rnd s)
    as (Ec & Eb & El & Ei & Ech & Ep & _ & Eany & Eall).
  fold s1 in Ec, Eb, El, Ei, Ech, Ep, Eany, Eall.
  assert (Hq0 : q0' = q0).
  { revert Hcand. unfold candidate.
    destruct (getitem _ _) as [row |]; [| discriminate]. cbn [bind].
    rewrite Eany, Eall.
    destruct (any_discrete s); [destruct (all_discrete s) |].
    - destruct (np_add _ _); [| discriminate]. cbn [bind]. intros [= _ <-].
      apply map_astype_int_integral. now apply Hint.
    - destruct (mask_select _ _); [| discriminate]. cbn [bind].
      destruct (mask_assign _ _ _); [| discriminate]. cbn [bind].
      destruct (np_add _ _); [| discriminate]. cbn [bind].
      destruct (mask_select _ _); [| discriminate]. cbn [bind].
      now intros [= _ <-].
    - destruct (np_add _ _); [| discriminate]. cbn [bind]. now intros [= _ <-]. }
  subst q0'.
  rewrite astep_later_stage by assumption. fold s1. unfold mutate.
  rewrite Hcand. cbn [bind]. unfold getitem at 1. rewrite Ep, Ech, Hl0. cbn [bind].
  rewrite Ec, Hbnd. cbn [truthy call_check_bnd bind].
  destruct (isfinite (f q)) eqn:Hfin.
  - unfold metropolis, getitem. rewrite El, Ei, Hnew, Hold. cbn [bind].
    unfold metrop_select. rewrite Eb.
    destruct (Rlt_dec (log_uniform rnd) (beta s * (llk_new - llk_old))) as [Hlt | Hge].
    + cbn [bind]. eexists _, _, _. split; [reflexivity |]. split.
      * intros _.
        destruct (advance_counters_fields
                    (set_chain_previous_lpoint
                       (<[chain_index (set_accepted (accepted s1 + 1) s1) := logp_forw s q]>
                          (chain_previous_lpoint (set_accepted (accepted s1 + 1) s1)))
                       (set_accepted (accepted s1 + 1) s1)))
          as (Ha & Hp & _).
        rewrite Ha, Hp. cbn. rewrite Ech, Ep. tauto.
      * intros Hn. exfalso. apply Hn. now split.
    + cbn [bind]. eexists _, _, _. split; [reflexivity |]. split.
      * intros [_ Hlt]. contradiction.
      * intros _. destruct (advance_counters_fields s1) as (Ha & Hp & _).
        rewrite Ha, Hp, Ep. tauto.
  - cbn [bind]. eexists _, _, _. split; [reflexivity |]. split.
    + intros [Habs _]. discriminate.
    + intros _. destruct (advance_counters_fields s1) as (Ha & Hp & _).
      rewrite Ha, Hp, Ep. tauto.
Qed.

Lemma astep_accept_reject_witness :
  stage sample_kernel_plain <> 0%Z /\
  candidate (draw_proposals sample_stream (tune_checkpoint sample_kernel_plain)) [0; 0]
    = Ok ([0 + 2 / 5 * 1; 0 + 3 / 10 * 1], [0; 0]) /\
  exists (l_new : list R) (s' : SMC),
    astep sample_stream sample_kernel_plain [0; 0]
      = Ok ([0 + 2 / 5 * 1; 0 + 3 / 10 * 1], l_new, s') /\
    accepted s' = 1%Z.
Proof.
  assert (H1 : stage sample_kernel_plain <> 0%Z) by (cbn; lia).
  assert (H2 : candidate (draw_proposals sample_stream (tune_checkpoint sample_kernel_plain))
                 [0; 0] = Ok ([0 + 2 / 5 * 1; 0 + 3 / 10 * 1], [0; 0])) by reflexivity.
  split; [exact H1 |]. split; [exact H2 |].
  destruct (astep_accept_reject sample_stream sample_kernel_plain [0; 0]
              (fun _ => Fin 0) [0 + 2 / 5 * 1; 0 + 3 / 10 * 1] [0; 0] [0; 0]
              (0 + 2 / 5 * 1) 0 H1 eq_refl H2
              (fun H _ => False_ind _ (Bool.diff_false_true H)) eq_refl eq_refl eq_refl)
    as (q_new & l_new & s' & Hrun & Hacc & _).
  destruct Hacc as (-> & _ & Hcount & _).
  { split; [reflexivity |]. cbn. lra. }
  exists l_new, s'. split; [exact Hrun | exact Hcount].
Defined.

(** ** The candidate of a mutation attempt *)

Lemma np_round_below (x : R) (z : Z) :
  IZR z <= x < IZR z + 1 / 2 -> np_round x = IZR z.
Proof. intros H. unfold np_round. now rewrite (round_half_even_below x z). Qed.

Lemma astype_int_eq (x : R) (z : Z) : x = IZR z -> astype_int x = IZR z.
Proof. intros ->. apply astype_int_integral. now exists z. Qed.

Lemma np_add_same_length (a b : list R) :
  length a = length b -> np_add a b = Ok (zip_with Rplus a b).
Proof. intros H. unfold np_add. now rewrite H, Nat.eqb_refl. Qed.

(** Without discrete entries the candidate is the position plus the scaled
    delta, entry by entry. *)
Lemma candidate_continuous (s : SMC) (q0 row : list R) :
  any_discrete s = false ->
  proposal_samples_array s !! stage_sample s = Some row ->
  length row = length q0 ->
  candidate s q0 = Ok (zip_with Rplus q0 (map (fun d => d * scaling s) row), q0) /\
  length (zip_with Rplus q0 (map (fun d => d * scaling s) row)) = length q0.
Proof.
  intros Hany Hrow Hlen. unfold candidate, getitem. rewrite Hrow, Hany. cbn [bind].
  rewrite np_add_same_length by (rewrite length_map; lia).
  split; [reflexivity |].
  rewrite length_zip_with, length_map. lia.
Qed.

(** With every entry discrete the candidate has the length of the position
    and only integral entries. *)
Lemma candidate_all_discrete (s : SMC) (q0 row : list R) :
  any_discrete s = true -> all_discrete s = true ->
  proposal_samples_array s !! stage_sample s = Some row ->
  length row = length q0 ->
  exists q : list R,
    candidate s q0 = Ok (q, map astype_int q0) /\
    length q = length q0 /\ Forall is_integral q.
Proof.
  intros Hany Hall Hrow Hlen. unfold candidate, getitem.
  rewrite Hrow, Hany, Hall. cbn [bind].
  rewrite np_add_same_length by (rewrite !length_map; lia).
  cbn [bind]. eexists. split; [reflexivity |]. split.
  - rewrite length_map, length_zip_with, !length_map. lia.
  - apply Forall_forall. intros x Hx. apply list_elem_of_In, in_map_iff in Hx.
    destruct Hx as (y & <- & _). apply astype_int_is_integral.
Qed.

(* The mutation attempt on a position with one discrete and one continuous
   entry: line 205 keeps the discrete entry only. *)
Lemma candidate_mixed_drops_continuous :
  candidate sample_kernel_mixed [1; 1 / 2] = Ok ([1], [1; 1 / 2]) /\
  length [1; 1 / 2] = 2%nat /\
  discrete sample_kernel_mixed = [true; false].
Proof.
  split; [| split; reflexivity].
  unfold candidate, getitem. cbn [sample_kernel_mixed proposal_samples_array
    stage_sample any_discrete all_discrete discrete scaling lookup list_lookup bind map].
  unfold mask_select, mask_assign, np_add.
  cbn [length Nat.eqb select assign map bind zip_with].
  rewrite (np_round_below (2 / 5 * 1) 0) by lra.
  rewrite (astype_int_eq 0 0 eq_refl).
  rewrite (astype_int_eq (1 + 0) 1) by lra.
  reflexivity.
Qed.

(** C4 (the code departs from it): on a position with one discrete and one
    continuous entry, [2] entries in all, the candidate of the mutation
    attempt is the one-entry vector [1]: the discrete entry moved by its
    rounded delta is kept and the continuous entry is dropped, and the step
    accepts and returns that one-entry position. *)
Theorem astep_mixed_returns_short_position :
  discrete sample_kernel_mixed = [true; false] /\
  candidate sample_kernel_mixed [1; 1 / 2] = Ok ([1], [1; 1 / 2]) /\
  length [1] <> length [1; 1 / 2] /\
  exists (l_new : list R) (s' : SMC),
    astep sample_stream sample_kernel_mixed [1; 1 / 2] = Ok ([1], l_new, s').
Proof.
  destruct candidate_mixed_drops_continuous as (Hc & _).
  split; [reflexivity |]. split; [exact Hc |]. split; [cbn; lia |].
  unfold astep, mutate.
  cbn [sample_kernel_mixed stage Z.eqb].
  change (draw_proposals sample_stream (tune_checkpoint sample_kernel_mixed))
    with (set_proposal_samples_array [[2 / 5; 3 / 10]] sample_kernel_mixed).
  change (candidate (set_proposal_samples_array [[2 / 5; 3 / 10]] sample_kernel_mixed)
            [1; 1 / 2])
    with (candidate sample_kernel_mixed [1; 1 / 2]).
  rewrite Hc. cbn [bind]. unfold getitem, metropolis, metrop_select. cbn.
  destruct (Rlt_dec (-1) (1 / 2 * (1 - 0))) as [_ | Hn]; [| exfalso; lra].
  cbn. eexists _, _. reflexivity.
Qed.

(** ** The constructor's check_bound flag *)

Lemma SMC_init_flag_irrelevant (b1 b2 : bool) (a : init_args) :
  SMC_init b1 a = SMC_init b2 a.
Proof.
  unfold SMC_init.
  destruct (list_index _ _); [| reflexivity]. cbn [bind].
  destruct (discrete_mask _); reflexivity.
Qed.

Lemma SMC_init_check_bnd (b : bool) (a : init_args) (s : SMC) :
  SMC_init b a = Ok s -> check_bnd s = BndFunc (arg_varlogp a).
Proof.
  unfold SMC_init.
  destruct (list_index _ _); [| discriminate]. cbn [bind].
  destruct (discrete_mask _); [| discriminate]. cbn [bind].
  now intros [= <-].
Qed.

(** C10: the check_bound argument of the constructor has no effect.  The
    objects built with True and with False are the same, their check_bnd
    attribute is the compiled prior log-density (a true value) and astep
    never changes it, so whatever happens to the two objects afterwards
    (any function [later] of the object), astep returns the same on both for
    every position and random stream; and in a later stage a candidate whose
    prior log-density is not finite is turned down without a call of the
    full evaluator whatever the flag was. *)
Theorem check_bound_has_no_effect (a : init_args) :
  SMC_init true a = SMC_init false a /\
  (forall (b : bool) (s : SMC),
      SMC_init b a = Ok s ->
      check_bnd s = BndFunc (arg_varlogp a) /\ truthy (check_bnd s) = true) /\
  (forall (rnd : random_stream) (s : SMC) (q0 q_new l_new : list R) (s' : SMC),
      astep rnd s q0 = Ok (q_new, l_new, s') -> check_bnd s' = check_bnd s) /\
  (forall (s1 s2 : SMC) (later : SMC -> SMC) (rnd : random_stream) (q0 : list R),
      SMC_init true a = Ok s1 -> SMC_init false a = Ok s2 ->
      astep rnd (later s1) q0 = astep rnd (later s2) q0) /\
  (forall (b : bool) (s : SMC) (rnd : random_stream) (q0 q q0' l0 : list R),
      check_bnd s = BndFunc (arg_varlogp a) ->
      stage s <> 0%Z ->
      candidate (draw_proposals rnd (tune_checkpoint s)) q0 = Ok (q, q0') ->
      chain_previous_lpoint s !! chain_index s = Some l0 ->
      isfinite (arg_varlogp a q) = false ->
      astep rnd s q0 =
        Ok (q0', l0, advance_counters (draw_proposals rnd (tune_checkpoint s)))).
Proof.
  split; [apply SMC_init_flag_irrelevant |].
  split.
  { intros b s Hs. rewrite (SMC_init_check_bnd b a s Hs). now split. }
  split.
  { intros rnd s q0 q_new l_new s' Hrun.
    apply astep_frame in Hrun. now injection Hrun. }
  split.
  { intros s1 s2 later rnd q0 H1 H2.
    rewrite (SMC_init_flag_irrelevant true false) in H1.
    rewrite H1 in H2. now injection H2 as ->. }
  intros _ s rnd q0 q q0' l0 Hbnd Hstage Hcand Hl0 Hfin.
  destruct (prepared_fields rnd s) as (Ec & _ & _ & _ & Ech & Ep & _).
  cbv zeta in Ec, Ech, Ep.
  rewrite astep_later_stage by assumption. unfold mutate.
  rewrite Hcand. cbn [bind]. unfold getitem. rewrite Ep, Ech, Hl0. cbn [bind].
  rewrite Ec, Hbnd. cbn [truthy call_check_bnd bind]. now rewrite Hfin.
Qed.

Lemma check_bound_has_no_effect_witness :
  exists s : SMC,
    SMC_init true sample_init_args = Ok s /\
    SMC_init false sample_init_args = Ok s /\
    truthy (check_bnd s) = true.
Proof.
  destruct (check_bound_has_no_effect sample_init_args) as (Heq & Hbnd & _).
  eexists. split; [reflexivity |]. split.
  - rewrite <- Heq. reflexivity.
  - exact (proj2 (Hbnd true _ eq_refl)).
Defined.

(** ** Systematic resampling *)

Section Resample.
Local Open Scope nat_scope.

Lemma advance_spec_bucket (u : R) (tail : list R) (j : nat) :
  advance u tail j =
  match spec_bucket tail u with
  | Some k => Ok (j + k)
  | None => Raise IndexError
  end.
Proof.
  revert j. induction tail as [| c rest IH]; intros j; cbn; [reflexivity |].
  destruct (Rgt_dec u c) as [Hgt | Hngt], (Rle_dec u c) as [Hle | Hnle];
    try (exfalso; lra).
  - rewrite IH. destruct (spec_bucket rest u); cbn; [f_equal; lia | reflexivity].
  - f_equal. lia.
Qed.

Lemma spec_bucket_Some (cum : list R) (u : R) (k : nat) :
  spec_bucket cum u = Some k ->
  (exists c, cum !! k = Some c /\ (u <= c)%R) /\
  (forall i c, i < k -> cum !! i = Some c -> (c < u)%R).
Proof.
  revert k. induction cum as [| c0 rest IH]; intros k; cbn; [discriminate |].
  destruct (Rle_dec u c0) as [Hle | Hnle].
  - intros [= <-]. split; [exists c0; now split | intros i c Hi; lia].
  - destruct (spec_bucket rest u) as [k' |]; cbn; [| discriminate].
    intros [= <-]. destruct (IH k' eq_refl) as [Hex Hmin]. split; [exact Hex |].
    intros [| i] c Hi; cbn.
    + intros [= <-]. lra.
    + apply Hmin. lia.
Qed.

Lemma spec_bucket_exists (cum : list R) (u c : R) :
  In c cum -> (u <= c)%R -> exists k, spec_bucket cum u = Some k.
Proof.
  induction cum as [| c0 rest IH]; cbn; [contradiction |].
  intros Hin Hle. destruct (Rle_dec u c0); [now exists 0 |].
  destruct Hin as [-> | Hin]; [contradiction |].
  destruct (IH Hin Hle) as [k ->]. now exists (S k).
Qed.

Lemma spec_bucket_drop (cum : list R) (u : R) (j : nat) :
  (forall i c, i < j -> cum !! i = Some c -> (c < u)%R) ->
  spec_bucket cum u = option_map (Nat.add j) (spec_bucket (drop j cum) u).
Proof.
  revert j. induction cum as [| c0 rest IH]; intros j Hinv.
  - now destruct j.
  - destruct j as [| j].
    + rewrite drop_0. destruct (spec_bucket (c0 :: rest) u); reflexivity.
    + cbn [drop spec_bucket].
      assert (c0 < u)%R by (apply (Hinv 0 c0); [lia | reflexivity]).
      destruct (Rle_dec u c0); [lra |].
      rewrite (IH j).
      * now destruct (spec_bucket (drop j rest) u).
      * intros i c Hi Hc. apply (Hinv (S i) c); [lia | exact Hc].
Qed.

Lemma sum_list_insert_S (N : list nat) (k n : nat) :
  N !! k = Some n -> sum_list (<[k := S n]> N) = S (sum_list N).
Proof.
  revert k. induction N as [| m N IH]; intros [| k] Hk; try discriminate.
  - injection Hk as ->. reflexivity.
  - simpl in Hk. simpl. rewrite (IH k Hk). lia.
Qed.

Lemma count_children_spec (cum us : list R) :
  forall (j : nat) (N : list nat),
    StronglySorted Rle us ->
    (forall u, In u us -> exists c, In c cum /\ (u <= c)%R) ->
    (forall u i c, In u us -> i < j -> cum !! i = Some c -> (c < u)%R) ->
    length N = length cum ->
    exists N',
      count_children us cum j N = Ok N' /\
      length N' = length N /\
      sum_list N' = sum_list N + length us /\
      forall i,
        N' !!! i =
        N !!! i + length (filter (fun u => spec_bucket cum u = Some i) us).
Proof.
  induction us as [| u us IH]; intros j N Hsorted Hin Hinv Hlen.
  - exists N. cbn. repeat split; lia.
  - apply StronglySorted_inv in Hsorted as [Hsorted Hhead].
    destruct (Hin u) as (c & Hc & Hle); [now left |].
    destruct (spec_bucket_exists cum u c Hc Hle) as [k Hk].
    pose proof (spec_bucket_drop cum u j
                  (fun i c0 Hi => Hinv u i c0 (or_introl eq_refl) Hi)) as Hdrop.
    rewrite Hk in Hdrop.
    destruct (spec_bucket (drop j cum) u) as [k' |] eqn:Hk'; [| discriminate].
    cbn in Hdrop. injection Hdrop as ->.
    destruct (spec_bucket_Some cum u (j + k') Hk) as [(ck & Hck & _) Hmin].
    assert (Hlt : j + k' < length N).
    { rewrite Hlen. eapply lookup_lt_Some. exact Hck. }
    destruct (lookup_lt_is_Some_2 N (j + k') Hlt) as [n Hn].
    destruct (IH (j + k') (<[j + k' := S n]> N)) as (N' & Hrun & HlenN' & Hsum & Hat).
    + exact Hsorted.
    + intros u' Hu'. apply Hin. now right.
    + intros u' i c0 Hu' Hi Hc0.
      apply Rlt_le_trans with u; [now apply (Hmin i c0) |].
      rewrite Forall_forall in Hhead. apply Hhead. now apply list_elem_of_In.
    + now rewrite length_insert.
    + exists N'. cbn [count_children]. rewrite advance_spec_bucket, Hk'. cbn [bind].
      unfold getitem. rewrite Hn. cbn [bind]. split; [exact Hrun |].
      split; [now rewrite HlenN', length_insert |].
      split.
      * rewrite Hsum, (sum_list_insert_S N (j + k') n Hn). cbn [length]. lia.
      * intros i. rewrite Hat, filter_cons.
        destruct (decide (spec_bucket cum u = Some i)) as [Hi | Hi].
        -- rewrite Hk in Hi. injection Hi as <-.
           rewrite list_lookup_total_insert_eq by exact Hlt.
           rewrite (list_lookup_total_correct N (j + k') n Hn). cbn [length]. lia.
        -- rewrite list_lookup_total_insert_ne; [reflexivity |].
           intros <-. now apply Hi.
Qed.
End Resample.

Section Expand.
Local Open Scope nat_scope.

Lemma fill_spec (n v : nat) :
  forall pre mid post : list nat,
    length mid = n ->
    fill (pre ++ mid ++ post) (length pre) n v = Ok (pre ++ repeat v n ++ post).
Proof.
  induction n as [| n IH]; intros pre mid post Hmid.
  - destruct mid; [reflexivity | discriminate].
  - destruct mid as [| m mid]; [discriminate |]. cbn [fill].
    assert (Hin : (length pre <? length (pre ++ (m :: mid) ++ post)) = true).
    { apply Nat.ltb_lt. rewrite !length_app. cbn [length]. lia. }
    rewrite Hin.
    assert (Hins : <[length pre := v]> (pre ++ (m :: mid) ++ post)
                   = (pre ++ [v]) ++ mid ++ post).
    { rewrite insert_app_r_alt by lia. rewrite Nat.sub_diag.
      rewrite <- app_assoc. reflexivity. }
    rewrite Hins.
    replace (S (length pre)) with (length (pre ++ [v]))
      by (rewrite length_app; cbn [length]; lia).
    rewrite IH by (cbn [length] in Hmid; lia).
    rewrite <- app_assoc. reflexivity.
Qed.

Lemma expand_spec (N parents : list nat) :
  forall pre rest : list nat,
    Forall (fun i => i < length N) parents ->
    length rest = sum_list (map (fun i => N !!! i) parents) ->
    expand parents N (length pre) (pre ++ rest)
    = Ok (pre ++ flat_map (fun i => repeat i (N !!! i)) parents).
Proof.
  induction parents as [| i ps IH]; intros pre rest Hall Hlen.
  - destruct rest; [reflexivity | discriminate].
  - apply Forall_cons in Hall as [Hi Hall].
    destruct (lookup_lt_is_Some_2 N i Hi) as [n Hn].
    cbn [expand flat_map map] in *. unfold getitem. rewrite Hn. cbn [bind].
    rewrite (list_lookup_total_correct N i n Hn) in *.
    simpl in Hlen.
    assert (Hfill : fill (pre ++ take n rest ++ drop n rest) (length pre) n i
                    = Ok (pre ++ repeat i n ++ drop n rest)).
    { apply fill_spec. rewrite length_take. lia. }
    rewrite take_drop in Hfill.
    assert (Hout : (if 0 <? n then fill (pre ++ rest) (length pre) n i
                    else Ok (pre ++ rest))
                   = Ok ((pre ++ repeat i n) ++ drop n rest)).
    { rewrite <- app_assoc. destruct n as [| n]; [| exact Hfill].
      cbn [Nat.ltb Nat.leb repeat app]. now rewrite drop_0. }
    rewrite Hout. cbn [bind].
    replace (length pre + n) with (length (pre ++ repeat i n))
      by (rewrite length_app, repeat_length; lia).
    rewrite IH; [now rewrite <- app_assoc | exact Hall |].
    rewrite length_drop. lia.
Qed.

Lemma map_lookup_total_seq (pre N : list nat) :
  map (fun i => (pre ++ N) !!! i) (seq (length pre) (length N)) = N.
Proof.
  revert pre. induction N as [| x N IH]; intros pre; [reflexivity |].
  cbn [length seq map]. f_equal.
  - now apply list_lookup_total_middle.
  - specialize (IH (pre ++ [x])).
    rewrite <- app_assoc, length_app in IH. cbn [length app] in IH.
    now rewrite Nat.add_1_r in IH.
Qed.

Lemma map_lookup_total_seq_0 (N : list nat) :
  map (fun i => N !!! i) (seq 0 (length N)) = N.
Proof. exact (map_lookup_total_seq [] N). Qed.

Lemma spec_expand_length (N : list nat) : length (spec_expand N) = sum_list N.
Proof.
  unfold spec_expand.
  transitivity (sum_list (map (fun i => N !!! i) (seq 0 (length N)))).
  - induction (seq 0 (length N)) as [| i l IH]; [reflexivity |].
    cbn [flat_map map]. rewrite length_app, repeat_length. simpl. lia.
  - now rewrite map_lookup_total_seq_0.
Qed.

Lemma spec_expand_range (N : list nat) :
  Forall (fun i => i < length N) (spec_expand N).
Proof.
  apply Forall_forall. intros i Hi. apply list_elem_of_In in Hi.
  unfold spec_expand in Hi. apply in_flat_map in Hi as (k & Hk & Hik).
  apply repeat_spec in Hik as ->. apply in_seq in Hk. lia.
Qed.
End Expand.

Lemma div_le_cross (a b c : R) : 0 < c -> a <= b * c -> a / c <= b.
Proof.
  intros Hc H. apply (Rmult_le_reg_r c); [exact Hc |].
  unfold Rdiv. rewrite Rmult_assoc, Rinv_l by lra. lra.
Qed.

Lemma selection_point_le (chains a b : nat) (u0 : R) :
  (0 < chains)%nat -> (a <= b)%nat ->
  (INR a + u0) / INR chains <= (INR b + u0) / INR chains.
Proof.
  intros Hc Hab. apply lt_0_INR in Hc. apply le_INR in Hab.
  apply div_le_cross; [exact Hc |].
  unfold Rdiv. rewrite Rmult_assoc, Rinv_l by lra. lra.
Qed.

Lemma selection_points_sorted (chains : nat) (u0 : R) :
  (0 < chains)%nat -> StronglySorted Rle (selection_points chains u0).
Proof.
  intros Hc. unfold selection_points. generalize 0%nat.
  induction chains as [| n IH] at 2; intros a; cbn [seq map]; constructor.
  - apply IH.
  - apply Forall_forall. intros u Hu. apply list_elem_of_In, in_map_iff in Hu.
    destruct Hu as (b & <- & Hb). apply in_seq in Hb.
    apply selection_point_le; [exact Hc | lia].
Qed.

Lemma selection_points_le_1 (chains : nat) (u0 u : R) :
  u0 < 1 -> In u (selection_points chains u0) -> u <= 1.
Proof.
  intros Hu0 Hu. unfold selection_points in Hu. apply in_map_iff in Hu.
  destruct Hu as (k & <- & Hk). apply in_seq in Hk.
  assert (Hk1 : INR (S k) <= INR chains) by (apply le_INR; lia).
  rewrite S_INR in Hk1.
  apply div_le_cross; [| lra].
  apply Rlt_le_trans with (INR k + 1); [| exact Hk1].
  pose proof (pos_INR k). lra.
Qed.

Lemma cumsum_from_total (acc : R) (l : list R) :
  l <> [] -> In (acc + np_sum l) (cumsum_from acc l).
Proof.
  revert acc. induction l as [| x l IH]; intros acc Hne; [contradiction |].
  cbn [cumsum_from np_sum fold_right]. destruct l as [| y l].
  - left. cbn. lra.
  - right. fold (np_sum (y :: l)).
    replace (acc + (x + np_sum (y :: l))) with (acc + x + np_sum (y :: l)) by lra.
    now apply IH.
Qed.

Lemma length_cumsum (l : list R) : length (cumsum l) = length l.
Proof.
  unfold cumsum. generalize 0. induction l as [| x l IH]; intros acc; cbn;
    [reflexivity | now rewrite IH].
Qed.

Lemma lookup_total_repeat_0 (n i : nat) : repeat 0%nat n !!! i = 0%nat.
Proof. revert i. induction n as [| n IH]; intros [| i]; cbn; auto. Qed.

Lemma sum_list_repeat_0 (n : nat) : sum_list (repeat 0%nat n) = 0%nat.
Proof. induction n as [| n IH]; [reflexivity | exact IH]. Qed.

(** C5: for weights of length chains that are non-negative and sum to 1,
    and an offset u0 in [0, 1), resample returns an index array of length
    chains with every value below chains; the child counts it builds are
    the ones of the specification (the number of selection points (k + u0) /
    chains whose smallest containing cumulative-weight bucket is the
    particle), they sum to chains, and the index array is their expansion. *)
Theorem resample_systematic (weights : list R) (chains : nat) (u0 : R) :
  length weights = chains ->
  Forall (fun w => 0 <= w) weights ->
  np_sum weights = 1 ->
  0 <= u0 < 1 ->
  exists N_childs outindx : list nat,
    child_counts weights chains u0 = Ok N_childs /\
    resample weights chains u0 = Ok outindx /\
    length outindx = chains /\
    Forall (fun i => (i < chains)%nat) outindx /\
    N_childs = spec_child_counts weights chains u0 /\
    sum_list N_childs = chains /\
    outindx = spec_expand N_childs.
Proof.
  intros Hlen _ Hsum [_ Hu0].
  assert (Hne : weights <> []).
  { intros ->. cbn in Hsum. lra. }
  assert (Hpos : (0 < chains)%nat).
  { destruct weights; [contradiction | cbn in Hlen; lia]. }
  destruct (count_children_spec (cumsum weights) (selection_points chains u0)
              0%nat (repeat 0%nat chains))
    as (N & Hrun & HlenN & HsumN & Hat).
  - now apply selection_points_sorted.
  - intros u Hu. exists 1. split.
    + rewrite <- Hsum. unfold cumsum.
      replace (np_sum weights) with (0 + np_sum weights) by lra.
      now apply cumsum_from_total.
    + now apply (selection_points_le_1 chains u0).
  - intros u i c _ Hi. lia.
  - now rewrite repeat_length, length_cumsum.
  - rewrite repeat_length in HlenN.
    rewrite sum_list_repeat_0 in HsumN.
    unfold selection_points in HsumN at 1. rewrite length_map, length_seq in HsumN.
    cbn [Nat.add] in HsumN.
    assert (Hexp : expand (seq 0 chains) N 0 (repeat 0%nat chains)
                   = Ok (spec_expand N)).
    { pose proof (expand_spec N (seq 0 chains) [] (repeat 0%nat chains)) as He.
      cbn [length app] in He. unfold spec_expand. rewrite HlenN. apply He.
      - apply Forall_forall. intros i Hi.
        apply list_elem_of_In, in_seq in Hi. lia.
      - rewrite repeat_length. rewrite <- HlenN at 2.
        now rewrite map_lookup_total_seq_0. }
    exists N, (spec_expand N).
    split; [exact Hrun |].
    split; [unfold resample, child_counts; rewrite Hrun; exact Hexp |].
    split; [rewrite spec_expand_length; exact HsumN |].
    split; [rewrite <- HlenN; apply spec_expand_range |].
    split; [| split; [exact HsumN | reflexivity]].
    rewrite <- (map_lookup_total_seq_0 N) at 1.
    unfold spec_child_counts. rewrite HlenN. apply map_ext. intros i.
    now rewrite Hat, lookup_total_repeat_0.
Qed.

Lemma resample_systematic_witness :
  exists N_childs : list nat,
    child_counts [1 / 4; 3 / 4] 2 (1 / 2) = Ok N_childs /\
    sum_list N_childs = 2%nat.
Proof.
  destruct (resample_systematic [1 / 4; 3 / 4] 2 (1 / 2)) as (N & out & H1 & _ & _ & _ & _ & H6 & _).
  - reflexivity.
  - repeat constructor; lra.
  - cbn. lra.
  - lra.
  - exists N. split; [exact H1 | exact H6].
Defined.

(** ** The tempering schedule *)

Lemma div_ge_cross (a b c : R) : 0 < c -> b * c <= a -> b <= a / c.
Proof.
  intros Hc H. apply (Rmult_le_reg_r c); [exact Hc |].
  unfold Rdiv. rewrite Rmult_assoc, Rinv_l by lra. lra.
Qed.

Lemma div_lt_cross (a b c : R) : 0 < c -> a < b * c -> a / c < b.
Proof.
  intros Hc H. apply (Rmult_lt_reg_r c); [exact Hc |].
  unfold Rdiv. rewrite Rmult_assoc, Rinv_l by lra. lra.
Qed.

Lemma tolerance_pos : 0 < tolerance.
Proof. unfold tolerance. lra. Qed.

Lemma np_sum_pos (l : list R) :
  l <> [] -> Forall (fun x => 0 < x) l -> 0 < np_sum l.
Proof.
  intros Hne Hall. destruct Hall as [| x l Hx Hl]; [contradiction |].
  cbn. clear Hne. induction Hl as [| y l Hy _ IH]; cbn in *; lra.
Qed.

Lemma np_sum_scale (l : list R) (c : R) :
  np_sum (map (fun w => w / c) l) = np_sum l / c.
Proof.
  induction l as [| x l IH]; cbn.
  - unfold Rdiv. ring.
  - fold (np_sum (map (fun w => w / c) l)). fold (np_sum l).
    rewrite IH. unfold Rdiv. ring.
Qed.

Lemma importance_weights_ok (new_beta old_beta : R) (likelihoods : list R) :
  likelihoods <> [] ->
  exists w : list R,
    importance_weights new_beta old_beta likelihoods = Ok w /\
    Forall (fun x => 0 < x) w /\
    np_sum w = 1 /\
    length w = length likelihoods.
Proof.
  intros Hne. unfold importance_weights.
  destruct likelihoods as [| l0 ls]; [contradiction |].
  cbn [np_max bind].
  set (m := fold_left Rmax ls l0).
  set (un := map (fun l => exp ((new_beta - old_beta) * (l - m))) (l0 :: ls)).
  assert (Hun : Forall (fun x => 0 < x) un).
  { apply Forall_forall. intros x Hx. apply list_elem_of_In, in_map_iff in Hx.
    destruct Hx as (l & <- & _). apply exp_pos. }
  assert (Hs : 0 < np_sum un) by (apply np_sum_pos; [discriminate | exact Hun]).
  eexists. split; [reflexivity |]. split; [| split].
  - apply Forall_forall. intros x Hx. apply list_elem_of_In, in_map_iff in Hx.
    destruct Hx as (y & <- & Hy).
    rewrite Forall_forall in Hun. apply list_elem_of_In, Hun in Hy.
    now apply Rdiv_lt_0_compat.
  - rewrite np_sum_scale. unfold Rdiv. apply Rinv_r. lra.
  - subst un. now rewrite !length_map.
Qed.

Lemma ESS_of_floor (w : list R) :
  w <> [] -> Forall (fun x => 0 < x) w ->
  ESS_of w = Zfloor (1 / np_sum (map (fun x => x ^ 2) w)).
Proof.
  intros Hne Hw. unfold ESS_of. apply py_int_nonneg.
  assert (0 < np_sum (map (fun x => x ^ 2) w)).
  { apply np_sum_pos; [now destruct w |].
    apply Forall_forall. intros y Hy. apply list_elem_of_In, in_map_iff in Hy.
    destruct Hy as (x & <- & Hx). rewrite Forall_forall in Hw.
    apply list_elem_of_In, Hw in Hx. nra. }
  apply Rlt_le, Rdiv_lt_0_compat; lra.
Qed.

Lemma bisect_invariant (old_beta : R) (likelihoods : list R) (rN : Z) (lo hi : R) :
  likelihoods <> [] ->
  forall (fuel : nat) (b b' : bisection),
    lo <= low_beta b -> up_beta b <= hi ->
    iterate_ok old_beta likelihoods lo hi (last_iterate b) ->
    bisect fuel old_beta likelihoods rN b = Some (Ok b') ->
    lo <= low_beta b' /\ up_beta b' <= hi /\
    iterate_ok old_beta likelihoods lo hi (last_iterate b') /\
    (last_iterate b <> None \/ bracket_width b > tolerance ->
     last_iterate b' <> None) /\
    ((exists new_beta w,
         last_iterate b' = Some (new_beta, w) /\ ESS_of w = rN /\
         bracket_width b' > tolerance)
     \/ bracket_width b' <= tolerance).
Proof.
  intros Hne. pose proof tolerance_pos as Htol.
  induction fuel as [| fuel IH]; intros b b' Hlo Hhi Hit; cbn [bisect];
    destruct (Rgt_dec (up_beta b - low_beta b) tolerance) as [Hw | Hw].
  - discriminate.
  - intros [= <-]. unfold bracket_width. repeat split; try assumption.
    + intros [Hsome | Habs]; [exact Hsome | contradiction].
    + right. lra.
  - set (nb := (low_beta b + up_beta b) / 2).
    destruct (importance_weights_ok nb old_beta likelihoods Hne) as (w & Hwts & _).
    rewrite Hwts.
    assert (Hnb : lo + tolerance / 2 < nb < hi) by (subst nb; lra).
    assert (Hit' : iterate_ok old_beta likelihoods lo hi (Some (nb, w))) by now split.
    destruct (ESS_of w =? rN)%Z eqn:Heq; [| destruct (ESS_of w <? rN)%Z].
    + intros [= <-]. cbn [low_beta up_beta last_iterate].
      refine (conj Hlo (conj Hhi (conj Hit' (conj _ _)))).
      * intros _. discriminate.
      * left. exists nb, w. unfold bracket_width. cbn.
        split; [reflexivity |]. split; [now apply Z.eqb_eq | exact Hw].
    + intros Hrun. apply IH in Hrun; cbn; try assumption; try lra.
      destruct Hrun as (H1 & H2 & H3 & H4 & H5). cbn in H4.
      refine (conj H1 (conj H2 (conj H3 (conj _ H5)))).
      intros _. apply H4. left. discriminate.
    + intros Hrun. apply IH in Hrun; cbn; try assumption; try lra.
      destruct Hrun as (H1 & H2 & H3 & H4 & H5). cbn in H4.
      refine (conj H1 (conj H2 (conj H3 (conj _ H5)))).
      intros _. apply H4. left. discriminate.
  - intros [= <-]. unfold bracket_width. repeat split; try assumption.
    + intros [Hsome | Habs]; [exact Hsome | contradiction].
    + right. lra.
Qed.

Lemma bisect_terminates (old_beta : R) (likelihoods : list R) (rN : Z) :
  forall (fuel : nat) (b : bisection),
    bracket_width b <= tolerance * 2 ^ fuel ->
    exists r, bisect fuel old_beta likelihoods rN b = Some r.
Proof.
  unfold bracket_width, tolerance.
  induction fuel as [| fuel IH]; intros b Hw; cbn [bisect];
    destruct (Rgt_dec (up_beta b - low_beta b) tolerance) as [Hgt | Hngt];
    try (eexists; reflexivity).
  - exfalso. unfold tolerance in Hgt. cbn [pow] in Hw. lra.
  - destruct (importance_weights _ _ _) as [w | e]; [| eexists; reflexivity].
    destruct (ESS_of w =? rN)%Z; [eexists; reflexivity |].
    cbn [pow] in Hw.
    destruct (ESS_of w <? rN)%Z; apply IH; cbn [low_beta up_beta]; lra.
Qed.

Lemma ln_2_pos : 0 < ln 2.
Proof. rewrite <- ln_1. apply ln_increasing; lra. Qed.

Lemma INR_to_nat_Zceil (y : R) : 0 <= y -> y <= INR (Z.to_nat (Zceil y)).
Proof.
  intros Hy. destruct (Zceil_bound y) as [_ Hc].
  assert (Hz : (0 <= Zceil y)%Z).
  { apply le_IZR. lra. }
  now rewrite INR_IZR_INZ, Z2Nat.id.
Qed.

Lemma bisect_fuel_enough (old_beta : R) :
  2 - old_beta <= tolerance * 2 ^ bisect_fuel old_beta.
Proof.
  pose proof tolerance_pos as Htol. pose proof ln_2_pos as Hln2.
  unfold bisect_fuel. set (x := (2 - old_beta) / tolerance).
  assert (Hx : 2 - old_beta = tolerance * x).
  { subst x. unfold Rdiv. rewrite (Rmult_comm (2 - old_beta)), <- Rmult_assoc.
    rewrite Rinv_r by lra. ring. }
  rewrite Hx. apply Rmult_le_compat_l; [lra |].
  set (n := Z.to_nat (Zceil (ln x / ln 2))).
  destruct (Rle_dec x 1) as [Hle | Hgt].
  - apply Rle_trans with 1; [exact Hle |]. apply pow_R1_Rle. lra.
  - apply Rnot_lt_le. intros Hlt.
    assert (Hp : 0 < 2 ^ n) by (apply pow_lt; lra).
    apply ln_increasing in Hlt; [| exact Hp].
    rewrite ln_pow in Hlt by lra.
    assert (Hlnx : 0 < ln x) by (rewrite <- ln_1; apply ln_increasing; lra).
    assert (Hy : 0 <= ln x / ln 2).
    { apply Rlt_le, Rdiv_lt_0_compat; assumption. }
    pose proof (INR_to_nat_Zceil _ Hy) as Hn. fold n in Hn.
    assert (Hq : ln x / ln 2 * ln 2 = ln x).
    { unfold Rdiv. rewrite Rmult_assoc, Rinv_l by lra. ring. }
    assert (ln x <= INR n * ln 2); [| lra].
    rewrite <- Hq. apply Rmult_le_compat_r; lra.
Qed.

Lemma calc_beta_bisection_terminates (beta : R) (likelihoods : list R)
  (threshold : R) :
  exists r,
    calc_beta_bisection (bisect_fuel beta) beta likelihoods threshold = Some r.
Proof.
  unfold calc_beta_bisection. apply bisect_terminates.
  unfold bracket_width. cbn [low_beta up_beta]. apply bisect_fuel_enough.
Qed.

(** calc_beta returns, or raises, on every input. *)
Lemma calc_beta_total (beta : R) (likelihoods : list R) (threshold : R) :
  exists r, calc_beta beta likelihoods threshold = Some r.
Proof.
  unfold calc_beta, calc_beta_fuel.
  destruct (calc_beta_bisection_terminates beta likelihoods threshold) as [r ->].
  destruct r as [b | e]; [| eexists; reflexivity].
  destruct (last_iterate b) as [[nb w] |]; eexists; reflexivity.
Qed.

(** What calc_beta returns on a non-empty likelihood vector and a current
    beta below [2 - tolerance]. *)
Lemma calc_beta_result (beta : R) (likelihoods : list R) (threshold : R) :
  beta < 2 - tolerance ->
  likelihoods <> [] ->
  exists (b : bisection) (new_beta : R) (w : list R),
    calc_beta_bisection (bisect_fuel beta) beta likelihoods threshold = Some (Ok b) /\
    last_iterate b = Some (new_beta, w) /\
    calc_beta beta likelihoods threshold = Some (Ok (new_beta, beta, w)) /\
    beta + tolerance / 2 < new_beta < 2 /\
    importance_weights new_beta beta likelihoods = Ok w /\
    (ESS_of w = target_ESS likelihoods threshold \/ bracket_width b <= tolerance).
Proof.
  intros Hbeta Hne.
  destruct (calc_beta_bisection_terminates beta likelihoods threshold) as [r Hr].
  destruct r as [b | e].
  - pose proof Hr as Hinv. unfold calc_beta_bisection in Hinv.
    apply (bisect_invariant beta likelihoods _ beta 2 Hne) in Hinv;
      cbn [low_beta up_beta last_iterate iterate_ok]; try lra; try exact I.
    destruct Hinv as (_ & _ & Hit & Hsome & Hexit).
    destruct (last_iterate b) as [[nb w] |] eqn:Hlast.
    + exists b, nb, w. cbn [iterate_ok] in Hit. destruct Hit as [Hnb Hw].
      split; [exact Hr |]. split; [exact Hlast |].
      split; [unfold calc_beta, calc_beta_fuel; now rewrite Hr, Hlast |].
      split; [exact Hnb |]. split; [exact Hw |].
      destruct Hexit as [(nb' & w' & [= <- <-] & Hess & _) | Hwidth];
        [left; exact Hess | right; exact Hwidth].
    + exfalso. apply Hsome; [| reflexivity]. right.
      unfold bracket_width. cbn [low_beta up_beta]. lra.
  - exfalso. revert Hr. unfold calc_beta_bisection.
    generalize (bisect_fuel beta) (mkBisection beta 2 None).
    induction n as [| n IH]; intros b; cbn [bisect];
      destruct (Rgt_dec _ _); try discriminate.
    destruct (importance_weights_ok ((low_beta b + up_beta b) / 2) beta likelihoods Hne)
      as (w & -> & _).
    destruct (ESS_of w =? _)%Z; [discriminate |].
    destruct (ESS_of w <? _)%Z; apply IH.
Qed.

(** C1 (amended): for old_beta in [0, 1), a non-empty vector of
    log-likelihoods and a threshold in (0, 1), calc_beta returns a new_beta
    in [old_beta, 2], the old beta, and the weights exp((new_beta -
    old_beta) * (ll_i - max(ll))) divided by their sum, which are
    non-negative and sum to 1; with ESS = floor(1 / sum(weights_i^2)), on
    return either ESS equals int(chains * threshold), the product truncated
    toward zero, or the final bracket of the bisection is at most 1e-6
    wide. *)
Theorem calc_beta_bisects (beta : R) (likelihoods : list R) (threshold : R) :
  0 <= beta < 1 ->
  likelihoods <> [] ->
  0 < threshold < 1 ->
  exists (b : bisection) (new_beta : R) (w : list R),
    calc_beta_bisection (bisect_fuel beta) beta likelihoods threshold = Some (Ok b) /\
    last_iterate b = Some (new_beta, w) /\
    calc_beta beta likelihoods threshold = Some (Ok (new_beta, beta, w)) /\
    Forall (fun x => 0 <= x) w /\
    np_sum w = 1 /\
    beta <= new_beta <= 2 /\
    importance_weights new_beta beta likelihoods = Ok w /\
    ESS_of w = Zfloor (1 / np_sum (map (fun x => x ^ 2) w)) /\
    (ESS_of w = py_int (INR (length likelihoods) * threshold) \/
     bracket_width b <= tolerance).
Proof.
  intros [Hb0 Hb1] Hne _. pose proof tolerance_pos as Htol.
  destruct (calc_beta_result beta likelihoods threshold) as
    (b & nb & w & Hrun & Hlast & Hret & Hnb & Hw & Hexit);
    [unfold tolerance; lra | exact Hne |].
  destruct (importance_weights_ok nb beta likelihoods Hne) as (w' & Hw' & Hpos & Hsum & Hlen).
  rewrite Hw in Hw'. injection Hw' as <-.
  exists b, nb, w. repeat split; try assumption; try lra.
  - eapply Forall_impl; [exact Hpos |]. intros x Hx. cbn in Hx. lra.
  - apply ESS_of_floor; [| exact Hpos].
    intros ->. destruct likelihoods; [contradiction | discriminate].
Qed.

Lemma calc_beta_bisects_witness :
  exists (new_beta : R) (w : list R),
    calc_beta 0 [0; -1] (9 / 10) = Some (Ok (new_beta, 0, w)) /\ np_sum w = 1.
Proof.
  destruct (calc_beta_bisects 0 [0; -1] (9 / 10))
    as (b & nb & w & _ & _ & Hret & _ & Hsum & _).
  - lra.
  - discriminate.
  - lra.
  - exists nb, w. split; [exact Hret | exact Hsum].
Defined.

(** *** Two runs of the bisection *)

Lemma bisect_fuel_pos (old_beta : R) :
  old_beta < 2 - tolerance -> exists fuel, bisect_fuel old_beta = S fuel.
Proof.
  intros H. pose proof (bisect_fuel_enough old_beta) as He.
  destruct (bisect_fuel old_beta) as [| fuel]; [| now exists fuel].
  cbn [pow] in He. lra.
Qed.

(** Log-likelihoods 0 and -1 at beta 1, seen from beta 0. *)
Lemma weights_0_m1 :
  importance_weights ((0 + 2) / 2) 0 [0; -1]
  = Ok [1 / (1 + (exp (-1) + 0)); exp (-1) / (1 + (exp (-1) + 0))].
Proof.
  unfold importance_weights. cbn [np_max fold_left bind map np_sum fold_right].
  rewrite (Rmax_left 0 (-1)) by lra.
  replace (((0 + 2) / 2 - 0) * (0 - 0)) with 0 by lra.
  replace (((0 + 2) / 2 - 0) * (-1 - 0)) with (-1) by lra.
  now rewrite exp_0.
Qed.

Lemma ESS_0_m1 :
  ESS_of [1 / (1 + (exp (-1) + 0)); exp (-1) / (1 + (exp (-1) + 0))] = 1%Z.
Proof.
  assert (Ha : 0 < exp (-1) < 1).
  { split; [apply exp_pos |]. rewrite <- exp_0. apply exp_increasing. lra. }
  set (a := exp (-1)) in *.
  assert (Hv : 1 / np_sum (map (fun x => x ^ 2) [1 / (1 + (a + 0)); a / (1 + (a + 0))])
               = (1 + a) ^ 2 / (1 + a ^ 2)).
  { cbn [map np_sum fold_right]. field. split; nra. }
  unfold ESS_of. rewrite Hv.
  assert (H1 : 1 <= (1 + a) ^ 2 / (1 + a ^ 2)) by (apply div_ge_cross; nra).
  assert (H2 : (1 + a) ^ 2 / (1 + a ^ 2) < 2) by (apply div_lt_cross; nra).
  rewrite py_int_nonneg by lra. apply Zfloor_eq. lra.
Qed.

Lemma target_ESS_2_09 : target_ESS [0; -1] (9 / 10) = 1%Z.
Proof.
  unfold target_ESS. cbn [length INR].
  rewrite py_int_nonneg by lra. apply Zfloor_eq. lra.
Qed.

(** Equal log-likelihoods: the weights are equal whatever the betas. *)
Lemma weights_flat (new_beta old_beta : R) :
  importance_weights new_beta old_beta [0; 0] = Ok [1 / (1 + (1 + 0)); 1 / (1 + (1 + 0))].
Proof.
  unfold importance_weights. cbn [np_max fold_left bind map np_sum fold_right].
  rewrite (Rmax_left 0 0) by lra.
  replace ((new_beta - old_beta) * (0 - 0)) with 0 by lra.
  now rewrite exp_0.
Qed.

Lemma ESS_flat : ESS_of [1 / (1 + (1 + 0)); 1 / (1 + (1 + 0))] = 2%Z.
Proof.
  unfold ESS_of. cbn [map np_sum fold_right].
  replace (1 / ((1 / (1 + (1 + 0))) ^ 2 + ((1 / (1 + (1 + 0))) ^ 2 + 0))) with (IZR 2)
    by (field; lra).
  apply py_int_IZR.
Qed.

Lemma bisect_flat (old_beta : R) :
  forall (k fuel : nat) (low : R) (it : option (R * list R)),
    (k <= fuel)%nat ->
    2 - low = tolerance * 2 ^ k ->
    exists it',
      bisect fuel old_beta [0; 0] 1 (mkBisection low 2 it)
      = Some (Ok (mkBisection (2 - tolerance) 2 it')) /\
      ((0 < k)%nat -> exists nb, it' = Some (nb, [1 / (1 + (1 + 0)); 1 / (1 + (1 + 0))])).
Proof.
  pose proof tolerance_pos as Htol.
  induction k as [| k IH]; intros fuel low it Hfuel Hw.
  - cbn [pow] in Hw. exists it. split; [| lia].
    destruct fuel; cbn [bisect low_beta up_beta];
      (destruct (Rgt_dec (2 - low) tolerance); [lra |]);
      do 3 f_equal; lra.
  - destruct fuel as [| fuel]; [lia |]. cbn [pow] in Hw.
    assert (Hp : 1 <= 2 ^ k) by (apply pow_R1_Rle; lra).
    cbn [bisect low_beta up_beta].
    destruct (Rgt_dec (2 - low) tolerance) as [_ | Hn]; [| exfalso; nra].
    rewrite weights_flat, ESS_flat. cbn [Z.eqb Z.ltb Z.compare Pos.compare Pos.eqb Pos.compare_cont].
    destruct (IH fuel ((low + 2) / 2)
                (Some ((low + 2) / 2, [1 / (1 + (1 + 0)); 1 / (1 + (1 + 0))])))
      as (it' & Hrun & Hit'); [lia | lra |].
    exists it'. split; [exact Hrun |]. intros _.
    destruct k as [| k'].
    + cbn [bisect low_beta up_beta pow] in Hrun. cbn [pow] in Hw.
      revert Hrun. destruct fuel; cbn [bisect low_beta up_beta];
        (destruct (Rgt_dec (2 - (low + 2) / 2) tolerance); [lra |]);
        intros [= _ <-]; eexists; reflexivity.
    + apply Hit'. lia.
Qed.

Lemma start_bracket_20 : 2 - 951424 / 1000000 = tolerance * 2 ^ 20.
Proof. unfold tolerance. lra. Qed.

Lemma bisect_fuel_20 : (20 <= bisect_fuel (951424 / 1000000))%nat.
Proof.
  pose proof (bisect_fuel_enough (951424 / 1000000)) as He.
  rewrite start_bracket_20 in He. pose proof tolerance_pos as Htol.
  destruct (Nat.le_gt_cases 20 (bisect_fuel (951424 / 1000000))) as [Hle | Hgt];
    [exact Hle | exfalso].
  apply (Rlt_pow 2) in Hgt; [| lra]. nra.
Qed.

(** C1 as stated fails in both of its alternatives.  At old_beta = 0,
    log-likelihoods [0, -1] and threshold 0.9 the bisection stops in its
    first iteration with ESS = 1 = int(1.8), which is not round(1.8) = 2,
    and a bracket of width 2.  At old_beta = 0.951424, log-likelihoods
    [0, 0] and threshold 0.5 it never meets the target and stops with a
    bracket of width 1e-6 exactly, which is not below 1e-6. *)
Lemma calc_beta_round_or_below_fails :
  (exists (b : bisection) (w : list R),
      calc_beta_bisection (bisect_fuel 0) 0 [0; -1] (9 / 10) = Some (Ok b) /\
      last_iterate b = Some (1, w) /\
      ESS_of w = 1%Z /\
      round_half_even (9 / 10 * INR (length [0; -1])) = 2%Z /\
      ~ (ESS_of w = round_half_even (9 / 10 * INR (length [0; -1])) \/
         bracket_width b < tolerance)) /\
  (exists (b : bisection) (new_beta : R) (w : list R),
      calc_beta_bisection (bisect_fuel (951424 / 1000000)) (951424 / 1000000)
        [0; 0] (1 / 2) = Some (Ok b) /\
      last_iterate b = Some (new_beta, w) /\
      ESS_of w = 2%Z /\
      round_half_even (1 / 2 * INR (length [0; 0])) = 1%Z /\
      bracket_width b = tolerance /\
      ~ (ESS_of w = round_half_even (1 / 2 * INR (length [0; 0])) \/
         bracket_width b < tolerance)).
Proof.
  pose proof tolerance_pos as Htol. split.
  - destruct (bisect_fuel_pos 0) as [fuel Hfuel]; [unfold tolerance; lra |].
    assert (Hround : round_half_even (9 / 10 * INR (length [0; -1])) = 2%Z).
    { cbn [length INR]. apply (round_half_even_above _ 1). lra. }
    eexists _, _. rewrite Hfuel. unfold calc_beta_bisection.
    cbn [bisect low_beta up_beta].
    destruct (Rgt_dec (2 - 0) tolerance) as [_ | Hn]; [| exfalso; unfold tolerance in Hn; lra].
    rewrite weights_0_m1, ESS_0_m1, target_ESS_2_09. cbn [Z.eqb Pos.eqb].
    split; [reflexivity |]. cbn [last_iterate].
    split; [f_equal; f_equal; lra |].
    split; [exact ESS_0_m1 |]. split; [exact Hround |].
    rewrite Hround, ESS_0_m1. unfold bracket_width. cbn [low_beta up_beta].
    intros [Habs | Habs]; [discriminate | unfold tolerance in Habs; lra].
  - assert (Hround : round_half_even (1 / 2 * INR (length [0; 0])) = 1%Z).
    { cbn [length INR]. apply (round_half_even_below _ 1). lra. }
    assert (Htarget : target_ESS [0; 0] (1 / 2) = 1%Z).
    { unfold target_ESS. cbn [length INR].
      replace ((1 + 1) * (1 / 2)) with (IZR 1) by lra. apply py_int_IZR. }
    destruct (bisect_flat (951424 / 1000000) 20 (bisect_fuel (951424 / 1000000))
                (951424 / 1000000) None bisect_fuel_20 start_bracket_20)
      as (it' & Hrun & Hit').
    destruct Hit' as [nb ->]; [lia |].
    eexists _, nb, _. unfold calc_beta_bisection. rewrite Htarget, Hrun.
    split; [reflexivity |]. cbn [last_iterate]. split; [reflexivity |].
    split; [exact ESS_flat |]. split; [exact Hround |].
    unfold bracket_width. cbn [low_beta up_beta].
    split; [lra |].
    rewrite Hround, ESS_flat. intros [Habs | Habs]; [discriminate | lra].
Qed.

(** ** The stage loop *)

Lemma stage_pass_beta (col : collaborators) (chains k : nat) (step : step_object) :
  beta (kernel step) < 1 ->
  snd (sample_stage col k step) <> [] ->
  exists (r : result step_object) (new_beta : R) (w : list R),
    stage_pass col chains k step = Some r /\
    calc_beta (beta (kernel step)) (snd (sample_stage col k step))
      (threshold (kernel step)) = Some (Ok (new_beta, beta (kernel step), w)) /\
    beta (kernel step) + tolerance / 2 < new_beta /\
    forall step' : step_object,
      r = Ok step' ->
      beta (kernel step') = Rmin new_beta 1 /\
      old_beta step' = beta (kernel step).
Proof.
  intros Hb Hne. pose proof tolerance_pos as Htol.
  unfold stage_pass.
  destruct (sample_stage col k step) as [[pop arr] lls]. cbn [snd] in *.
  cbn [kernel likelihoods set_likelihoods set_array_population set_population].
  destruct (calc_beta_result (beta (kernel step)) lls (threshold (kernel step)))
    as (b & nb & w & _ & _ & Hret & Hnb & _); [unfold tolerance; lra | exact Hne |].
  rewrite Hret.
  cbn [kernel set_weights set_old_beta set_kernel beta set_beta old_beta].
  destruct (Rgt_dec nb 1) as [Hgt | Hle].
  - eexists _, nb, w. split; [reflexivity |]. split; [reflexivity |].
    split; [lra |]. intros step' [= <-]. cbn. split; [| reflexivity].
    now rewrite Rmin_right by lra.
  - destruct (calc_covariance _ _ _) as [cov | e]; cbn [bind];
      [| eexists _, nb, w; repeat split; try reflexivity; try lra; discriminate].
    destruct (resample _ _ _) as [idx | e]; cbn [bind];
      [| eexists _, nb, w; repeat split; try reflexivity; try lra; discriminate].
    destruct (get_chain_previous_lpoint _ _) as [lps | e]; cbn [bind];
      [| eexists _, nb, w; repeat split; try reflexivity; try lra; discriminate].
    eexists _, nb, w. split; [reflexivity |]. split; [reflexivity |].
    split; [lra |]. intros step' [= <-]. cbn. split; [| reflexivity].
    now rewrite Rmin_left by lra.
Qed.

Lemma stage_loop_runs (col : collaborators) (chains : nat) :
  (forall (k : nat) (step : step_object), snd (sample_stage col k step) <> []) ->
  forall (fuel k : nat) (log : list (R * Z)) (step : step_object),
    beta (kernel step) <= 1 ->
    1 - beta (kernel step) <= INR fuel * (tolerance / 2) ->
    exists (entries : list (R * Z)) (r : result step_object),
      stage_loop fuel col chains k log step = Some (log ++ entries, r) /\
      StronglySorted Rlt (map fst entries) /\
      Forall (fun e => beta (kernel step) <= fst e < 1) entries /\
      INR (length entries) * (tolerance / 2) < 1 - beta (kernel step) + tolerance / 2 /\
      forall step' : step_object, r = Ok step' -> beta (kernel step') = 1.
Proof.
  intros Hne. pose proof tolerance_pos as Htol.
  induction fuel as [| fuel IH]; intros k log step Hle Hfuel; cbn [stage_loop];
    destruct (Rlt_dec (beta (kernel step)) 1) as [Hlt | Hnlt].
  - cbn [INR] in Hfuel. lra.
  - exists [], (Ok step). rewrite app_nil_r. cbn [map length INR].
    repeat split; try constructor; try lra. intros step' [= <-]. lra.
  - destruct (stage_pass_beta col chains k step Hlt (Hne k step))
      as (r & nb & w & Hpass & _ & Hnb & Hstep).
    rewrite Hpass. destruct r as [step' | e].
    + destruct (Hstep step' eq_refl) as [Hb' _].
      rewrite S_INR in Hfuel.
      assert (Hb'1 : beta (kernel step') <= 1) by (rewrite Hb'; apply Rmin_r).
      assert (Hb'2 : beta (kernel step) + tolerance / 2 < beta (kernel step')
                     \/ beta (kernel step') = 1).
      { rewrite Hb'. destruct (Rle_dec nb 1);
          [left; rewrite Rmin_left by lra; lra | right; apply Rmin_right; lra]. }
      destruct (IH (S k) (log ++ [(beta (kernel step), stage (kernel step))]) step')
        as (entries & r & Hrun & Hsorted & Hall & Hcount & Hfinal); [exact Hb'1 | |].
      { destruct Hb'2 as [Hb'2 | Hb'2]; [lra |]. rewrite Hb'2.
        pose proof (pos_INR fuel). nra. }
      exists ((beta (kernel step), stage (kernel step)) :: entries), r.
      rewrite Hrun, <- app_assoc. cbn [app map fst length].
      split; [reflexivity |]. split; [| split; [| split; [| exact Hfinal]]].
      * constructor; [exact Hsorted |].
        apply Forall_forall. intros x Hx. apply list_elem_of_In, in_map_iff in Hx.
        destruct Hx as (e & <- & He). rewrite Forall_forall in Hall.
        apply list_elem_of_In, Hall in He.
        destruct Hb'2 as [Hb'2 | Hb'2]; lra.
      * constructor; [cbn [fst]; lra |].
        eapply Forall_impl; [exact Hall |]. intros e He. cbn beta in He.
        destruct Hb'2 as [Hb'2 | Hb'2]; lra.
      * rewrite S_INR. destruct Hb'2 as [Hb'2 | Hb'2]; [lra |].
        rewrite Hb'2 in Hall.
        destruct entries as [| e entries]; [cbn [length INR]; lra |].
        apply Forall_cons in Hall as [He _]. lra.
    + exists [(beta (kernel step), stage (kernel step))], (Raise e).
      cbn [map fst length INR].
      repeat split; try (constructor; constructor); try (cbn [fst]; lra); try discriminate.
  - exists [], (Ok step). rewrite app_nil_r. cbn [map length INR].
    repeat split; try constructor; try lra. intros step' [= <-]. lra.
Qed.

(** C3: from a beta in [0, 1], every pass of the stage loop calls calc_beta,
    which returns a new_beta above the old beta, and leaves beta at
    min(new_beta, 1), so above its old value and at most 1; the loop ends
    after fewer than 2000001 passes, every pass starts with a beta in
    [0, 1), the betas of successive passes increase, and when the loop ends
    without an error beta is 1. *)
Theorem beta_schedule (col : collaborators) (chains : nat) (step : step_object) :
  0 <= beta (kernel step) <= 1 ->
  (forall (k : nat) (s : step_object), snd (sample_stage col k s) <> []) ->
  (forall k : nat,
      beta (kernel step) < 1 ->
      exists (r : result step_object) (new_beta : R) (w : list R),
        stage_pass col chains k step = Some r /\
        calc_beta (beta (kernel step)) (snd (sample_stage col k step))
          (threshold (kernel step)) = Some (Ok (new_beta, beta (kernel step), w)) /\
        beta (kernel step) < new_beta /\
        forall step' : step_object,
          r = Ok step' ->
          beta (kernel step') = Rmin new_beta 1 /\
          beta (kernel step) < beta (kernel step') <= 1) /\
  (forall fuel k : nat,
      2000000 <= INR fuel ->
      exists (entries : list (R * Z)) (r : result step_object),
        stage_loop fuel col chains k [] step = Some (entries, r) /\
        StronglySorted Rlt (map fst entries) /\
        Forall (fun e => 0 <= fst e < 1) entries /\
        INR (length entries) < 2000001 /\
        forall step' : step_object, r = Ok step' -> beta (kernel step') = 1).
Proof.
  intros [Hb0 Hb1] Hne. pose proof tolerance_pos as Htol. split.
  - intros k Hlt.
    destruct (stage_pass_beta col chains k step Hlt (Hne k step))
      as (r & nb & w & Hpass & Hret & Hnb & Hstep).
    exists r, nb, w. split; [exact Hpass |]. split; [exact Hret |].
    split; [lra |]. intros step' Hr. destruct (Hstep step' Hr) as [Hb' _].
    split; [exact Hb' |]. rewrite Hb'. split; [| apply Rmin_r].
    apply Rmin_glb_lt; lra.
  - intros fuel k Hfuel.
    destruct (stage_loop_runs col chains Hne fuel k [] step Hb1)
      as (entries & r & Hrun & Hsorted & Hall & Hcount & Hfinal).
    { unfold tolerance. lra. }
    exists entries, r. split; [exact Hrun |]. split; [exact Hsorted |].
    split; [| split; [| exact Hfinal]].
    + eapply Forall_impl; [exact Hall |]. intros e He. cbn beta in He. lra.
    + unfold tolerance in Hcount. lra.
Qed.

Lemma beta_schedule_witness :
  exists (r : result step_object) (new_beta : R),
    stage_pass sample_collaborators 2 0 sample_step = Some r /\
    beta (kernel sample_step) < new_beta.
Proof.
  assert (H0 : 0 <= beta (kernel sample_step) <= 1) by (cbn; lra).
  assert (H1 : forall (k : nat) (s : step_object),
             snd (sample_stage sample_collaborators k s) <> []) by (intros; discriminate).
  destruct (beta_schedule sample_collaborators 2 sample_step H0 H1) as [Hpass _].
  destruct (Hpass 0%nat) as (r & nb & _ & Hr & _ & Hnb & _); [cbn; lra |].
  exists r, nb. split; [exact Hr | exact Hnb].
Defined.

(** ** The weighted covariance *)

Lemma nonfinite_entry (l : list np_float) :
  existsb isnan l || existsb isinf l = true <->
  exists x, In x l /\ isfinite x = false.
Proof.
  rewrite orb_true_iff, !existsb_exists. split.
  - intros [(x & Hx & Hn) | (x & Hx & Hn)]; exists x; split; try assumption;
      now destruct x.
  - intros (x & Hx & Hn).
    destruct x; try discriminate;
      [right | right | left]; eexists; (split; [exact Hx | reflexivity]).
Qed.

(** C7: calc_covariance raises exactly when the weighted covariance has an
    entry that is not finite, the error is the ValueError of line 293, and
    when every entry is finite the covariance is returned with its entries
    unchanged, as a matrix of at least two dimensions. *)
Theorem calc_covariance_checks_finiteness
  (np_cov : list (list R) -> list R -> cov_array)
  (array_population : list (list R)) (weights : list R) :
  let cov := np_cov array_population weights in
  ((exists e, calc_covariance np_cov array_population weights = Raise e) <->
   (exists x, In x (cov_entries cov) /\ isfinite x = false)) /\
  (forall e,
      calc_covariance np_cov array_population weights = Raise e ->
      e = ValueError "Sample covariances not valid! Likely chains is too small!") /\
  (Forall (fun x => isfinite x = true) (cov_entries cov) <->
   calc_covariance np_cov array_population weights = Ok (atleast_2d cov)) /\
  concat (atleast_2d cov) = cov_entries cov.
Proof.
  intros cov. unfold calc_covariance. fold cov.
  pose proof (nonfinite_entry (cov_entries cov)) as Hiff.
  destruct (existsb isnan (cov_entries cov) || existsb isinf (cov_entries cov)) eqn:Hbad.
  - split; [| split; [| split]].
    + split; [intros _; now apply Hiff | intros _; eexists; reflexivity].
    + now intros e [= <-].
    + split; [| discriminate]. intros Hall.
      destruct (proj1 Hiff eq_refl) as (x & Hx & Hn).
      rewrite Forall_forall in Hall. apply list_elem_of_In, Hall in Hx. congruence.
    + destruct cov; cbn; [reflexivity | reflexivity].
  - split; [| split; [| split]].
    + split; [intros [e He]; discriminate |].
      intros Hex. apply Hiff in Hex. discriminate.
    + discriminate.
    + split; [reflexivity |]. intros _. apply Forall_forall. intros x Hx.
      apply list_elem_of_In in Hx.
      destruct (isfinite x) eqn:Hfin; [reflexivity |].
      assert (Hex : exists y, In y (cov_entries cov) /\ isfinite y = false)
        by (exists x; now split).
      apply Hiff in Hex. discriminate.
    + destruct cov; cbn; reflexivity.
Qed.

(** ** The start-up of sample_smc *)

Lemma existsb_false_Forall {A : Type} (f : A -> bool) (l : list A) :
  existsb f l = false <-> Forall (fun x => f x = false) l.
Proof.
  induction l as [| x l IH]; cbn.
  - split; [constructor | reflexivity].
  - rewrite orb_false_iff, IH, Forall_cons. reflexivity.
Qed.

(** The checks of lines 456-472 raise in exactly these four cases. *)
Lemma validate_arguments_raises_iff (chains : nat) (step : step_object)
  (start : option (list point)) (homepath : option string) (cores : Z) (m : model) :
  (exists e, validate_arguments chains step start homepath cores m = Raise e) <->
  homepath = None \/
  (1 < cores /\ Z.of_nat chains mod cores <> 0)%Z \/
  (exists st, start = Some st /\ length st <> chains) \/
  Forall (fun name => contains name (likelihood_name step) = false) (deterministics m).
Proof.
  unfold validate_arguments.
  destruct homepath as [hp |];
    [| split; [intros _; now left | intros _; eexists; reflexivity]].
  destruct ((1 <? cores)%Z && negb (Z.of_nat chains mod cores =? 0)%Z) eqn:Hc.
  { apply andb_true_iff in Hc as [Hc1 Hc2].
    apply Z.ltb_lt in Hc1. apply negb_true_iff, Z.eqb_neq in Hc2.
    split; [intros _; right; left; now split | intros _; eexists; reflexivity]. }
  assert (Hc' : ~ (1 < cores /\ Z.of_nat chains mod cores <> 0)%Z).
  { intros [Hc1 Hc2]. apply Z.ltb_lt in Hc1. apply Z.eqb_neq in Hc2.
    rewrite Hc1, Hc2 in Hc. discriminate. }
  destruct start as [st |]; cbn [bind].
  - destruct (Nat.eqb_spec (length st) chains) as [Hl | Hl]; cbn [negb bind].
    + cbn [likelihood_name set_population].
      destruct (existsb _ (deterministics m)) eqn:He; cbn [negb].
      * split; [intros [e Habs]; discriminate |].
        intros [Habs | [Habs | [(st' & [= <-] & Habs) | Habs]]];
          try discriminate; try contradiction.
        apply existsb_false_Forall in Habs. congruence.
      * split; [| intros _; eexists; reflexivity].
        intros _. do 3 right. now apply existsb_false_Forall.
    + split; [| intros _; eexists; reflexivity].
      intros _. right; right; left. now exists st.
  - destruct (existsb _ (deterministics m)) eqn:He; cbn [negb].
    + split; [intros [e Habs]; discriminate |].
      intros [Habs | [Habs | [(st' & Habs & _) | Habs]]];
        try discriminate; try contradiction.
      apply existsb_false_Forall in Habs. congruence.
    + split; [| intros _; eexists; reflexivity].
      intros _. do 3 right. now apply existsb_false_Forall.
Qed.

(** C8 (the code departs from it): with a homepath, one core, no start
    population, the likelihood name [like] and a model whose only
    deterministic is [my_like], the designated name is absent from the
    declared outputs, yet the checks of sample_smc raise nothing: line 470
    asks whether the name occurs inside a declared name. *)
Theorem validation_accepts_absent_name :
  likelihood_name sample_step = "like"%string /\
  deterministics sample_model = ["my_like"%string] /\
  ~ In (likelihood_name sample_step) (deterministics sample_model) /\
  validate_arguments 2 sample_step None (Some "out"%string) 1 sample_model
  = Ok sample_step.
Proof.
  split; [reflexivity |]. split; [reflexivity |]. split; [| reflexivity].
  cbn. intros [H | []]. discriminate.
Qed.

Lemma sample_smc_setup_population (col : collaborators) (chains : nat)
  (step : step_object) (start : option (list point)) (homepath : option string)
  (stage_arg cores : Z) (m : model) (step' : step_object) :
  sample_smc_setup col chains step start homepath stage_arg cores m = Ok step' ->
  _initial_population col chains (variable_names m) = Ok (population step').
Proof.
  unfold sample_smc_setup.
  destruct (validate_arguments _ _ _ _ _ _) as [step1 | e]; [| discriminate].
  cbn [bind].
  destruct (_initial_population col chains (variable_names m)) as [pop | e];
    [| discriminate].
  cbn [bind]. now intros [= <-].
Qed.

(** C9 (the code departs from it): whatever start population is supplied,
    the population sample_smc enters the stage loop with is the one drawn
    from the prior (line 493 replaces what line 468 stored); with the start
    population [x = 5] of length chains = 1 and prior draws [x = 0], the
    population of the initial stage is [x = 0]. *)
Theorem start_population_is_replaced :
  (forall (col : collaborators) (chains : nat) (step : step_object)
          (start : option (list point)) (homepath : option string)
          (stage_arg cores : Z) (m : model) (step' : step_object),
      sample_smc_setup col chains step start homepath stage_arg cores m = Ok step' ->
      _initial_population col chains (variable_names m) = Ok (population step')) /\
  length sample_start = 1%nat /\
  (exists step1 : step_object,
      validate_arguments 1 sample_step (Some sample_start) (Some "out"%string) 1
        sample_model_like = Ok step1 /\
      population step1 = sample_start) /\
  exists step' : step_object,
    sample_smc_setup sample_collaborators 1 sample_step (Some sample_start)
      (Some "out"%string) 0 1 sample_model_like = Ok step' /\
    population step' = [[("x"%string, [0])]] /\
    population step' <> sample_start.
Proof.
  split; [exact sample_smc_setup_population |]. split; [reflexivity |].
  split; [eexists; split; reflexivity |].
  eexists. split; [reflexivity |]. split; [reflexivity |].
  cbn. unfold sample_start. intros [= H]. lra.
Qed.

Lemma calc_covariance_checks_finiteness_witness :
  calc_covariance (fun _ _ => Cov0d (Fin 1)) [[0]; [1]] [1 / 2; 1 / 2]
  = Ok [[Fin 1]].
Proof.
  apply (proj1 (proj2 (proj2 (calc_covariance_checks_finiteness
                                (fun _ _ => Cov0d (Fin 1)) [[0]; [1]] [1 / 2; 1 / 2])))).
  repeat constructor.
Defined.

(** * Further properties of the code *)

(** ** The counters of the kernel *)

(** What one mutation attempt does to the step object. *)
Lemma mutate_effect (rnd : random_stream) (s : SMC) (q0 q_new l_new : list R)
  (s' : SMC) :
  mutate rnd s q0 = Ok (q_new, l_new, s') ->
  s' = advance_counters s \/
  exists logp : list R,
    (exists q, logp = logp_forw s q) /\
    s' = advance_counters
           (set_chain_previous_lpoint
              (<[chain_index s := logp]> (chain_previous_lpoint s))
              (set_accepted (accepted s + 1) s)).
Proof.
  assert (Hm : forall q q0' l0 q1 l1 s1,
             metropolis rnd s q q0' l0 = Ok (q1, l1, s1) ->
             s1 = s \/
             s1 = set_chain_previous_lpoint
                    (<[chain_index s := logp_forw s q]> (chain_previous_lpoint s))
                    (set_accepted (accepted s + 1) s)).
  { intros q q0' l0 q1 l1 s1. unfold metropolis.
    destruct (getitem (logp_forw s q) (llk_index s)); [| discriminate].
    destruct (getitem l0 (llk_index s)); [| discriminate].
    cbn [bind]. unfold metrop_select.
    destruct (Rlt_dec _ _); intros [= _ _ <-]; [right | left]; reflexivity. }
  unfold mutate.
  destruct (candidate s q0) as [[q q0'] |]; [| discriminate]. cbn [bind].
  destruct (getitem _ _) as [l0 |]; [| discriminate]. cbn [bind].
  assert (Hfin : forall q1 l1 s1,
             metropolis rnd s q q0' l0 = Ok (q1, l1, s1) ->
             Ok (q1, l1, advance_counters s1) = Ok (q_new, l_new, s') ->
             s' = advance_counters s \/
             exists logp : list R,
               (exists q, logp = logp_forw s q) /\
               s' = advance_counters
                      (set_chain_previous_lpoint
                         (<[chain_index s := logp]> (chain_previous_lpoint s))
                         (set_accepted (accepted s + 1) s))).
  { intros q1 l1 s1 Hrun [= _ _ <-].
    destruct (Hm _ _ _ _ _ _ Hrun) as [-> | ->]; [now left | right].
    eexists. split; [now exists q | reflexivity]. }
  destruct (truthy (check_bnd s)).
  - destruct (call_check_bnd _ _) as [v |]; [| discriminate]. cbn [bind].
    destruct (isfinite v).
    + destruct (metropolis rnd s q q0' l0) as [[[q1 l1] s1] |] eqn:Hrun;
        [| discriminate].
      cbn [bind]. now apply Hfin.
    + cbn [bind]. intros [= _ _ <-]. now left.
  - destruct (metropolis rnd s q q0' l0) as [[[q1 l1] s1] |] eqn:Hrun;
      [| discriminate].
    cbn [bind]. now apply Hfin.
Qed.

Lemma tune_checkpoint_counters (s : SMC) :
  counters_ok s ->
  counters_ok (tune_checkpoint s) /\
  (1 <= steps_until_tune (tune_checkpoint s))%Z.
Proof.
  intros (Hti & Hsut & Hacc & Hsum). unfold tune_checkpoint, tuning_due, counters_ok.
  destruct (Z.eqb_spec (steps_until_tune s) 0) as [H0 | H0];
    destruct (Z.eqb_spec (tune_interval s) 0) as [Ht | Ht]; cbn; lia.
Qed.

Lemma draw_proposals_counters (rnd : random_stream) (s : SMC) :
  tune_interval (draw_proposals rnd s) = tune_interval s /\
  steps_until_tune (draw_proposals rnd s) = steps_until_tune s /\
  accepted (draw_proposals rnd s) = accepted s /\
  scaling (draw_proposals rnd s) = scaling s /\
  n_steps (draw_proposals rnd s) = n_steps s /\
  p_acc_rate (draw_proposals rnd s) = p_acc_rate s.
Proof. unfold draw_proposals. destruct (stage_sample s); cbn; tauto. Qed.

Lemma mutate_counters (rnd : random_stream) (s : SMC) (q0 q_new l_new : list R)
  (s' : SMC) :
  mutate rnd s q0 = Ok (q_new, l_new, s') ->
  tune_interval s' = tune_interval s /\
  steps_until_tune s' = (steps_until_tune s - 1)%Z /\
  (accepted s' = accepted s \/ accepted s' = (accepted s + 1)%Z) /\
  scaling s' = scaling s /\
  n_steps s' = n_steps s /\
  p_acc_rate s' = p_acc_rate s.
Proof.
  intros Hrun. apply mutate_effect in Hrun.
  destruct Hrun as [-> | (logp & _ & ->)]; unfold advance_counters; cbv zeta;
    destruct (Z.of_nat _ =? _)%Z; cbn; tauto.
Qed.

(** X1: a call of astep leaves beta, the stage number, the threshold and the
    bounds function of the step object as they are, and at the initial stage
    it leaves the whole object as it is and returns the position it was
    given. *)
Theorem astep_keeps_schedule (rnd : random_stream) (s : SMC)
  (q0 q_new l_new : list R) (s' : SMC) :
  astep rnd s q0 = Ok (q_new, l_new, s') ->
  beta s' = beta s /\ stage s' = stage s /\ threshold s' = threshold s /\
  check_bnd s' = check_bnd s /\
  (stage s = 0%Z -> s' = s /\ q_new = q0 /\ l_new = logp_forw s q0).
Proof.
  intros Hrun. pose proof (astep_frame _ _ _ _ _ _ Hrun) as Hf.
  unfold frame in Hf. injection Hf as Hc Hb Hs Ht.
  split; [exact Hb |]. split; [exact Hs |]. split; [exact Ht |].
  split; [exact Hc |].
  intros H0. unfold astep in Hrun. rewrite H0 in Hrun. cbn in Hrun.
  injection Hrun as <- <- <-. now repeat split.
Qed.

Lemma astep_keeps_schedule_witness :
  astep sample_stream (kernel sample_step) [0; 0]
  = Ok ([0; 0], [0; 0], kernel sample_step) /\
  beta (kernel sample_step) = 0.
Proof.
  assert (Hrun : astep sample_stream (kernel sample_step) [0; 0]
                 = Ok ([0; 0], [0; 0], kernel sample_step)) by reflexivity.
  split; [exact Hrun |].
  exact (proj1 (astep_keeps_schedule _ _ _ _ _ _ Hrun)).
Defined.

(** X2: with tune_interval = 0 a call of astep never changes the scaling of
    the proposal or the number of steps of a chain. *)
Theorem astep_without_tuning (rnd : random_stream) (s : SMC)
  (q0 q_new l_new : list R) (s' : SMC) :
  tune_interval s = 0%Z ->
  astep rnd s q0 = Ok (q_new, l_new, s') ->
  scaling s' = scaling s /\ n_steps s' = n_steps s /\ tune_interval s' = 0%Z.
Proof.
  intros Hti. unfold astep. destruct (stage s =? 0)%Z.
  { now intros [= _ _ <-]. }
  rewrite tune_checkpoint_not_due
    by (unfold tuning_due; rewrite Hti; apply andb_false_r).
  intros Hrun. apply mutate_counters in Hrun.
  destruct (draw_proposals_counters rnd s) as (E1 & _ & _ & E4 & E5 & _).
  destruct Hrun as (H1 & _ & _ & H4 & H5 & _).
  rewrite H4, H5, H1, E1, E4, E5. now repeat split.
Qed.

(* A run of astep on the sample kernel: the candidate is accepted. *)
Lemma sample_run_plain :
  exists (l_new : list R) (s' : SMC),
    astep sample_stream sample_kernel_plain [0; 0]
    = Ok ([0 + 2 / 5 * 1; 0 + 3 / 10 * 1], l_new, s').
Proof.
  unfold astep, mutate. cbn [sample_kernel_plain stage Z.eqb].
  change (draw_proposals sample_stream (tune_checkpoint sample_kernel_plain))
    with (set_proposal_samples_array [[2 / 5; 3 / 10]] sample_kernel_plain).
  change (candidate (set_proposal_samples_array [[2 / 5; 3 / 10]] sample_kernel_plain)
            [0; 0])
    with (Ok ([0 + 2 / 5 * 1; 0 + 3 / 10 * 1], [0; 0]) : result (list R * list R)).
  cbn [bind]. unfold getitem, metropolis, metrop_select. cbn.
  destruct (Rlt_dec (-1) (1 / 2 * (0 + 2 / 5 * 1 - 0))) as [_ | Hn];
    [| exfalso; lra].
  cbn. eexists _, _. reflexivity.
Qed.

Lemma astep_without_tuning_witness :
  exists (q_new l_new : list R) (s' : SMC),
    astep sample_stream sample_kernel_plain [0; 0] = Ok (q_new, l_new, s') /\
    scaling s' = 1 /\ n_steps s' = 1%Z.
Proof.
  destruct sample_run_plain as (l & s' & Hrun).
  destruct (astep_without_tuning sample_stream sample_kernel_plain _ _ _ _ eq_refl Hrun)
    as (H1 & H2 & _).
  eexists _, l, s'. split; [exact Hrun |]. split; [exact H1 | exact H2].
Defined.

(** ** The tuned chain length *)

Lemma ln_nonpos_arg (x : R) : x <= 0 -> ln x = 0.
Proof.
  intros Hx. unfold ln. destruct (Rlt_dec 0 x); [exfalso; lra | reflexivity].
Qed.

Lemma ln_neg (x : R) : 0 < x < 1 -> ln x < 0.
Proof. intros [H0 H1]. rewrite <- ln_1. now apply ln_increasing. Qed.

Lemma exp_le (x y : R) : x <= y -> exp x <= exp y.
Proof.
  intros [Hlt | ->]; [left; now apply exp_increasing | right; reflexivity].
Qed.

Lemma pow_exp_ln (x : R) (n : nat) : 0 < x -> x ^ n = exp (INR n * ln x).
Proof. intros Hx. rewrite <- (Rpower_pow n x Hx). reflexivity. Qed.

(** The acceptance rate that line 185 uses. *)
Lemma tuning_rate_range (s : SMC) :
  counters_ok s ->
  steps_until_tune s = 0%Z ->
  let acc_rate := IZR (accepted s) / IZR (tune_interval s) in
  let acc_rate' :=
    if (accepted s =? 0)%Z then 1 / IZR (tune_interval s) else acc_rate in
  0 <= acc_rate <= 1 /\ 0 < acc_rate' <= 1.
Proof.
  intros (Hti & _ & Hacc & Hsum) Hsut. cbv zeta. rewrite Hsut in Hsum.
  assert (Ht : 1 <= IZR (tune_interval s)) by (apply IZR_le; lia).
  assert (Ha0 : 0 <= IZR (accepted s)) by (apply IZR_le; lia).
  assert (Ha1 : IZR (accepted s) <= IZR (tune_interval s)) by (apply IZR_le; lia).
  assert (Hr : 0 <= IZR (accepted s) / IZR (tune_interval s) <= 1).
  { split; [apply div_ge_cross; lra | apply div_le_cross; lra]. }
  split; [exact Hr |].
  destruct (Z.eqb_spec (accepted s) 0) as [H0 | H0].
  - split; [apply Rdiv_lt_0_compat; lra | apply div_le_cross; lra].
  - split; [| apply Hr].
    assert (1 <= IZR (accepted s)) by (apply IZR_le; lia).
    apply Rdiv_lt_0_compat; lra.
Qed.

Lemma chain_length_ratio (p a : R) :
  0 < p < 1 -> 0 < a <= 1 -> 0 <= ln p / ln (1 - a).
Proof.
  intros Hp [Ha0 [Ha1 | ->]].
  - pose proof (ln_neg p Hp) as Hlp.
    assert (Hla : ln (1 - a) < 0) by (apply ln_neg; lra).
    replace (ln p / ln (1 - a)) with ((- ln p) / (- ln (1 - a)))
      by (field; lra).
    apply Rlt_le, Rdiv_lt_0_compat; lra.
  - replace (1 - 1) with 0 by lra. rewrite (ln_nonpos_arg 0) by lra.
    unfold Rdiv. rewrite Rinv_0. lra.
Qed.

Lemma Zceil_nonneg (y : R) : 0 <= y -> (0 <= Zceil y)%Z.
Proof. intros Hy. destruct (Zceil_bound y) as [_ Hc]. apply le_IZR. lra. Qed.

(** The number of steps is the least one whose all-rejected probability is
    at most [p]. *)
Lemma chain_length_least (p a : R) :
  0 < p < 1 -> 0 < a < 1 ->
  let c := Zceil (ln p / ln (1 - a)) in
  (1 <= c)%Z /\
  (1 - a) ^ Z.to_nat c <= p /\
  p < (1 - a) ^ Z.to_nat (c - 1).
Proof.
  intros Hp Ha c.
  pose proof (ln_neg p Hp) as Hlp.
  assert (Hla : ln (1 - a) < 0) by (apply ln_neg; lra).
  assert (Hy : 0 < ln p / ln (1 - a)).
  { replace (ln p / ln (1 - a)) with ((- ln p) / (- ln (1 - a))) by (field; lra).
    apply Rdiv_lt_0_compat; lra. }
  destruct (Zceil_bound (ln p / ln (1 - a))) as [Hlo Hhi]. fold c in Hlo, Hhi.
  assert (Hc : (1 <= c)%Z).
  { assert (0 < IZR c) by lra. apply lt_IZR in H. lia. }
  assert (Hq : ln p / ln (1 - a) * ln (1 - a) = ln p) by (field; lra).
  split; [exact Hc |]. split.
  - rewrite pow_exp_ln by lra. rewrite INR_IZR_INZ, Z2Nat.id by lia.
    apply Rle_trans with (exp (ln p)); [| rewrite exp_ln; lra]. apply exp_le.
    rewrite <- Hq. revert Hhi Hla. generalize (ln p / ln (1 - a)) (ln (1 - a)).
    intros y L Hhi HL. nra.
  - rewrite pow_exp_ln by lra. rewrite INR_IZR_INZ, Z2Nat.id by lia.
    apply Rle_lt_trans with (exp (ln p)); [rewrite exp_ln; lra |].
    apply exp_increasing. rewrite minus_IZR.
    rewrite <- Hq. revert Hlo Hla. generalize (ln p / ln (1 - a)) (ln (1 - a)).
    intros y L Hlo HL. nra.
Qed.

(** ** A step that finds every index in range *)

Lemma length_assign {A : Type} (mask : list bool) (a vals : list A) :
  length (assign mask a vals) = length a.
Proof.
  revert a vals. induction mask as [| m mask IH]; intros [| x a] vals; cbn;
    try reflexivity.
  destruct m; [destruct vals |]; cbn; now rewrite IH.
Qed.

Lemma candidate_returns (dim : nat) (s : SMC) (q0 row : list R) :
  proposal_samples_array s !! stage_sample s = Some row ->
  length row = dim ->
  length (discrete s) = dim ->
  length q0 = dim ->
  exists q q0' : list R, candidate s q0 = Ok (q, q0').
Proof.
  intros Hrow Hlen Hmask Hq0. unfold candidate, getitem. rewrite Hrow. cbn [bind].
  destruct (any_discrete s); [destruct (all_discrete s) |].
  - rewrite np_add_same_length by (rewrite !length_map; lia).
    cbn [bind]. eexists _, _. reflexivity.
  - unfold mask_select at 1. rewrite length_map, Hmask, Hlen, Nat.eqb_refl.
    cbn [bind]. unfold mask_assign.
    rewrite length_map, Hmask, Hlen, Nat.eqb_refl. cbn [bind].
    rewrite np_add_same_length by (rewrite length_assign, length_map; lia).
    cbn [bind]. unfold mask_select.
    rewrite length_zip_with, length_assign, length_map, Hmask, Hlen, Hq0.
    rewrite Nat.min_id, Nat.eqb_refl. cbn [bind]. eexists _, _. reflexivity.
  - rewrite np_add_same_length by (rewrite length_map; lia).
    cbn [bind]. eexists _, _. reflexivity.
Qed.

Lemma tuned_n_steps_pos (s : SMC) :
  counters_ok s -> tuning_due s = true -> 0 < p_acc_rate s < 1 ->
  (1 <= n_steps (tune_checkpoint s))%Z /\ stage_sample (tune_checkpoint s) = 0%nat.
Proof.
  intros Hc Hdue Hp. unfold tune_checkpoint. rewrite Hdue. cbn.
  split; [| reflexivity].
  assert (Hsut : steps_until_tune s = 0%Z).
  { unfold tuning_due in Hdue. apply andb_true_iff in Hdue as [H _].
    now apply Z.eqb_eq. }
  destruct (tuning_rate_range s Hc Hsut) as [_ Ha]. cbv zeta in Ha.
  pose proof (Zceil_nonneg _ (chain_length_ratio _ _ Hp Ha)). lia.
Qed.

(** The step object at the mutation attempt of a call, after the tuning
    checkpoint and the draw of a batch. *)
Lemma prepared_ok (dim : nat) (rnd : random_stream) (s : SMC) :
  kernel_ok dim s -> stream_ok dim rnd ->
  let s1 := draw_proposals rnd (tune_checkpoint s) in
  kernel_ok dim s1 /\
  (tune_interval s1 = 0%Z \/ (1 <= steps_until_tune s1)%Z) /\
  (Z.of_nat (stage_sample s1) < n_steps s1)%Z /\
  Z.of_nat (length (proposal_samples_array s1)) = n_steps s1 /\
  Forall (fun row => length row = dim) (proposal_samples_array s1).
Proof.
  intros (Hbnd & Hcnt & Hp & Hn & Hmask & Hidx & Hci & Hlp & Hout) Hrnd.
  assert (H0 : let s0 := tune_checkpoint s in
               (tune_interval s0 = 0%Z \/ counters_ok s0 /\ (1 <= steps_until_tune s0)%Z) /\
               (1 <= n_steps s0)%Z /\
               (stage_sample s0 <> 0%nat ->
                (Z.of_nat (stage_sample s0) < n_steps s0)%Z /\
                Z.of_nat (length (proposal_samples_array s0)) = n_steps s0 /\
                Forall (fun row => length row = dim) (proposal_samples_array s0)) /\
               check_bnd s0 = check_bnd s /\ p_acc_rate s0 = p_acc_rate s /\
               discrete s0 = discrete s /\ chain_index s0 = chain_index s /\
               chain_previous_lpoint s0 = chain_previous_lpoint s /\
               llk_index s0 = llk_index s /\ logp_forw s0 = logp_forw s).
  { cbv zeta. destruct (tuning_due s) eqn:Hdue.
    - assert (Hc : counters_ok s).
      { destruct Hcnt as [Ht | Hc]; [| exact Hc]. unfold tuning_due in Hdue.
        rewrite Ht in Hdue. cbn in Hdue. now rewrite andb_false_r in Hdue. }
      destruct (tuned_n_steps_pos s Hc Hdue Hp) as [Hn' Hss].
      destruct (tune_checkpoint_counters s Hc) as [Hc' Hsut'].
      split; [right; now split |]. split; [exact Hn' |].
      split; [intros Habs; now rewrite Hss in Habs |].
      unfold tune_checkpoint. rewrite Hdue. cbn. now repeat split.
    - rewrite (tune_checkpoint_not_due s Hdue).
      split; [| split; [exact Hn | split; [exact Hidx | now repeat split]]].
      destruct Hcnt as [Ht | Hc]; [now left | right]. split; [exact Hc |].
      destruct Hc as (Hti & Hsut & _). unfold tuning_due in Hdue.
      destruct (Z.eqb_spec (steps_until_tune s) 0) as [E | E]; [| lia].
      destruct (Z.eqb_spec (tune_interval s) 0) as [E' | E']; [lia |].
      discriminate. }
  cbv zeta in H0. revert H0. generalize (tune_checkpoint s). intros s0.
  intros (Hcnt0 & Hn0 & Hidx0 & Eb & Ep & Ed & Eci & Ecp & Ell & Elf).
  cbv zeta. unfold draw_proposals.
  destruct (stage_sample s0) as [| k] eqn:Hss.
  - destruct (Hrnd (n_steps s0)) as [Hlen Hrows].
    unfold kernel_ok, counters_ok in *. cbn. rewrite Hss, Hlen, Z2Nat.id by lia.
    rewrite Eb, Ep, Ed, Eci, Ecp, Ell, Elf.
    repeat split; try assumption; try tauto; try lia.
  - destruct Hidx0 as (Hi1 & Hi2 & Hi3); [discriminate |].
    unfold kernel_ok, counters_ok in *. rewrite Hss.
    rewrite Eb, Ep, Ed, Eci, Ecp, Ell, Elf.
    repeat split; try assumption; try tauto; try lia.
Qed.

Lemma advance_counters_ok (dim : nat) (s : SMC) :
  (exists f, check_bnd s = BndFunc f) ->
  (tune_interval s = 0%Z \/
   (0 < tune_interval s)%Z /\ (1 <= steps_until_tune s)%Z /\
   (0 <= accepted s)%Z /\
   (accepted s + steps_until_tune s - 1 <= tune_interval s)%Z) ->
  0 < p_acc_rate s < 1 ->
  (1 <= n_steps s)%Z ->
  length (discrete s) = dim ->
  (Z.of_nat (stage_sample s) < n_steps s)%Z ->
  Z.of_nat (length (proposal_samples_array s)) = n_steps s ->
  Forall (fun row => length row = dim) (proposal_samples_array s) ->
  (chain_index s < length (chain_previous_lpoint s))%nat ->
  Forall (fun l => (llk_index s < length l)%nat) (chain_previous_lpoint s) ->
  (forall q, (llk_index s < length (logp_forw s q))%nat) ->
  kernel_ok dim (advance_counters s).
Proof.
  intros Hbnd Hcnt Hp Hn Hmask Hss Hlen Hrows Hci Hlp Hout.
  unfold advance_counters. cbv zeta.
  cbn [stage_sample set_stage_sample set_steps_until_tune n_steps].
  destruct (Z.eqb_spec (Z.of_nat (S (stage_sample s))) (n_steps s)) as [E | E];
    unfold kernel_ok, counters_ok; cbn.
  - split; [exact Hbnd |]. split; [lia |]. split; [exact Hp |].
    split; [exact Hn |]. split; [exact Hmask |].
    split; [intros Habs; now contradiction Habs |]. now repeat split.
  - split; [exact Hbnd |]. split; [lia |]. split; [exact Hp |].
    split; [exact Hn |]. split; [exact Hmask |].
    split; [intros _; split; [lia | now split] |]. now repeat split.
Qed.

Lemma mutate_returns_ok (dim : nat) (rnd : random_stream) (s : SMC) (q0 : list R) :
  kernel_ok dim s ->
  (tune_interval s = 0%Z \/ (1 <= steps_until_tune s)%Z) ->
  (Z.of_nat (stage_sample s) < n_steps s)%Z ->
  Z.of_nat (length (proposal_samples_array s)) = n_steps s ->
  Forall (fun row => length row = dim) (proposal_samples_array s) ->
  length q0 = dim ->
  exists (q_new l_new : list R) (s' : SMC),
    mutate rnd s q0 = Ok (q_new, l_new, s') /\ kernel_ok dim s'.
Proof.
  intros Hok Hsut Hss Hlen Hrows Hq0.
  pose proof Hok as ((f & Hbnd) & Hcnt & Hp & Hn & Hmask & _ & Hci & Hlp & Hout).
  destruct (lookup_lt_is_Some_2 (proposal_samples_array s) (stage_sample s))
    as [row Hrow]; [lia |].
  pose proof (Forall_lookup_1 _ _ _ _ Hrows Hrow) as Hrowlen. cbn in Hrowlen.
  destruct (candidate_returns dim s q0 row Hrow Hrowlen Hmask Hq0) as (q & q0' & Hcand).
  destruct (lookup_lt_is_Some_2 _ _ Hci) as [l0 Hl0].
  pose proof (Forall_lookup_1 _ _ _ _ Hlp Hl0) as Hl0len. cbn in Hl0len.
  destruct (lookup_lt_is_Some_2 _ _ Hl0len) as [b Hb].
  destruct (lookup_lt_is_Some_2 _ _ (Hout q)) as [a Ha].
  assert (Hrun : exists q_new l_new s', mutate rnd s q0 = Ok (q_new, l_new, s')).
  { unfold mutate. rewrite Hcand. cbn [bind]. unfold getitem at 1. rewrite Hl0.
    cbn [bind]. rewrite Hbnd. cbn [truthy call_check_bnd bind].
    destruct (isfinite (f q)); [| eexists _, _, _; reflexivity].
    unfold metropolis, getitem. rewrite Ha, Hb. cbn [bind]. unfold metrop_select.
    destruct (Rlt_dec _ _); cbn [bind]; eexists _, _, _; reflexivity. }
  destruct Hrun as (q_new & l_new & s' & Hrun).
  exists q_new, l_new, s'. split; [exact Hrun |].
  apply mutate_effect in Hrun.
  assert (Hcnt' : tune_interval s = 0%Z \/
                  (counters_ok s /\ (1 <= steps_until_tune s)%Z)).
  { destruct Hcnt as [H | H]; [now left |].
    destruct Hsut as [H' | H']; [now left | right; now split]. }
  unfold counters_ok in Hcnt'.
  destruct Hrun as [-> | (logp & (q' & ->) & ->)];
    apply advance_counters_ok; cbn; rewrite ?length_insert; try assumption;
    try (now exists f); try lia.
  apply Forall_insert; [assumption | apply Hout].
Qed.

(** A call of astep on a well-formed step object returns and leaves the
    object well-formed. *)
Lemma astep_returns_ok (dim : nat) (rnd : random_stream) (s : SMC) (q0 : list R) :
  kernel_ok dim s -> stream_ok dim rnd -> length q0 = dim ->
  exists (q_new l_new : list R) (s' : SMC),
    astep rnd s q0 = Ok (q_new, l_new, s') /\ kernel_ok dim s'.
Proof.
  intros Hok Hrnd Hq0. unfold astep. destruct (stage s =? 0)%Z.
  { eexists _, _, _. split; [reflexivity | exact Hok]. }
  destruct (prepared_ok dim rnd s Hok Hrnd) as (Hok1 & Hsut & Hss & Hlen & Hrows).
  now apply mutate_returns_ok.
Qed.

Lemma sample_kernel_tuning_ok : kernel_ok 2 sample_kernel_tuning.
Proof.
  unfold kernel_ok, counters_ok. cbn.
  split; [eexists; reflexivity |]. split; [right; lia |]. split; [lra |].
  split; [lia |]. split; [reflexivity |].
  split; [intros H; now contradiction H |]. split; [lia |].
  split; [repeat constructor |]. intros q. lia.
Qed.

Lemma sample_stream_rows_ok : stream_ok 2 sample_stream_rows.
Proof.
  intros n. cbn. split; [apply repeat_length |].
  apply Forall_forall. intros row Hrow.
  apply list_elem_of_In, repeat_spec in Hrow. now subst row.
Qed.

Lemma sample_run_tuning :
  exists (q_new l_new : list R) (s' : SMC),
    astep sample_stream_rows sample_kernel_tuning [0; 0] = Ok (q_new, l_new, s').
Proof.
  destruct (astep_returns_ok 2 sample_stream_rows sample_kernel_tuning [0; 0]
              sample_kernel_tuning_ok sample_stream_rows_ok eq_refl)
    as (q & l & s' & Hrun & _).
  now exists q, l, s'.
Qed.

Lemma tune_range (a : R) : 0 <= a <= 1 -> (1 / 9) ^ 2 <= tune a <= 1.
Proof. intros Ha. unfold tune. cbv zeta. nra. Qed.

(** X3: the tuning counters stay consistent.  If tuning is on and the
    counters say that [accepted] of the [tune_interval - steps_until_tune]
    attempts since the last checkpoint were accepted, they say so again
    after a call of astep, and the acceptance rate accepted / tune_interval
    lies in [0, 1]. *)
Theorem astep_keeps_counters (rnd : random_stream) (s : SMC)
  (q0 q_new l_new : list R) (s' : SMC) :
  counters_ok s ->
  astep rnd s q0 = Ok (q_new, l_new, s') ->
  counters_ok s' /\
  tune_interval s' = tune_interval s /\
  0 <= IZR (accepted s') / IZR (tune_interval s') <= 1.
Proof.
  intros Hc Hrun.
  assert (Hc' : counters_ok s' /\ tune_interval s' = tune_interval s).
  { revert Hrun. unfold astep. destruct (stage s =? 0)%Z.
    { now intros [= _ _ <-]. }
    intros Hrun. apply mutate_counters in Hrun.
    destruct Hrun as (H1 & H2 & H3 & _).
    destruct (draw_proposals_counters rnd (tune_checkpoint s)) as (E1 & E2 & E3 & _).
    destruct (tune_checkpoint_counters s Hc) as [(C1 & C2 & C3 & C4) C5].
    assert (Et : tune_interval (tune_checkpoint s) = tune_interval s).
    { unfold tune_checkpoint. now destruct (tuning_due s). }
    unfold counters_ok. rewrite H1, H2, E1, E2, Et. rewrite E3 in H3.
    rewrite Et in C1, C4. split; [| reflexivity].
    destruct H3 as [-> | ->]; lia. }
  destruct Hc' as [Hc' Et]. split; [exact Hc' |]. split; [exact Et |].
  destruct Hc' as (Hti & Hsut & Hacc & Hsum).
  assert (1 <= IZR (tune_interval s')) by (apply IZR_le; lia).
  assert (0 <= IZR (accepted s')) by (apply IZR_le; lia).
  assert (IZR (accepted s') <= IZR (tune_interval s')) by (apply IZR_le; lia).
  split; [apply div_ge_cross; lra | apply div_le_cross; lra].
Qed.

Lemma astep_keeps_counters_witness :
  exists (q_new l_new : list R) (s' : SMC),
    astep sample_stream_rows sample_kernel_tuning [0; 0] = Ok (q_new, l_new, s') /\
    counters_ok s'.
Proof.
  destruct sample_run_tuning as (q & l & s' & Hrun).
  assert (Hc : counters_ok sample_kernel_tuning) by (unfold counters_ok; cbn; lia).
  exists q, l, s'. split; [exact Hrun |].
  exact (proj1 (astep_keeps_counters _ _ _ _ _ _ Hc Hrun)).
Defined.

(** X4: after a call of astep that passes a tuning checkpoint, the scaling
    of the proposal lies in [(1/9)^2, 1] and the number of steps of a chain
    is at least 1. *)
Theorem tuned_scaling_and_steps (rnd : random_stream) (s : SMC)
  (q0 q_new l_new : list R) (s' : SMC) :
  stage s <> 0%Z ->
  counters_ok s ->
  steps_until_tune s = 0%Z ->
  0 < p_acc_rate s < 1 ->
  astep rnd s q0 = Ok (q_new, l_new, s') ->
  (1 / 9) ^ 2 <= scaling s' <= 1 /\ (1 <= n_steps s')%Z.
Proof.
  intros Hstage Hc Hsut Hp Hrun.
  rewrite astep_later_stage in Hrun by exact Hstage.
  apply mutate_counters in Hrun. destruct Hrun as (_ & _ & _ & H4 & H5 & _).
  destruct (draw_proposals_counters rnd (tune_checkpoint s)) as (_ & _ & _ & E4 & E5 & _).
  rewrite H4, H5, E4, E5.
  assert (Hdue : tuning_due s = true).
  { unfold tuning_due. rewrite Hsut. destruct Hc as (Hti & _).
    destruct (Z.eqb_spec (tune_interval s) 0); [lia | reflexivity]. }
  split; [| apply (tuned_n_steps_pos s Hc Hdue Hp)].
  destruct (tuning_rate_range s Hc Hsut) as [Ha _]. cbv zeta in Ha.
  unfold tune_checkpoint. rewrite Hdue. cbn [scaling set_stage_sample set_accepted
    set_steps_until_tune set_n_steps set_scaling].
  now apply tune_range.
Qed.

Lemma tuned_scaling_and_steps_witness :
  exists (q_new l_new : list R) (s' : SMC),
    astep sample_stream_rows sample_kernel_tuning [0; 0] = Ok (q_new, l_new, s') /\
    scaling s' <= 1 /\ (1 <= n_steps s')%Z.
Proof.
  destruct sample_run_tuning as (q & l & s' & Hrun).
  assert (Hc : counters_ok sample_kernel_tuning) by (unfold counters_ok; cbn; lia).
  assert (Hs : stage sample_kernel_tuning <> 0%Z) by (cbn; lia).
  assert (Hp : 0 < p_acc_rate sample_kernel_tuning < 1) by (cbn; lra).
  destruct (tuned_scaling_and_steps _ _ _ _ _ _ Hs Hc eq_refl Hp Hrun) as [[_ H1] H2].
  exists q, l, s'. split; [exact Hrun |]. split; [exact H1 | exact H2].
Defined.

(** X5: at a tuning checkpoint with an acceptance rate a below 1 (1 /
    tune_interval when nothing was accepted), the new n_steps is at least 2
    and n_steps - 1 is the least number of attempts that are all rejected
    with probability at most p_acc_rate:
    (1 - a)^(n_steps - 1) <= p_acc_rate < (1 - a)^(n_steps - 2). *)
Theorem tuned_steps_are_least (s : SMC) :
  counters_ok s ->
  steps_until_tune s = 0%Z ->
  0 < p_acc_rate s < 1 ->
  let a := if (accepted s =? 0)%Z then 1 / IZR (tune_interval s)
           else IZR (accepted s) / IZR (tune_interval s) in
  a < 1 ->
  let n := n_steps (tune_checkpoint s) in
  (2 <= n)%Z /\
  (1 - a) ^ Z.to_nat (n - 1) <= p_acc_rate s /\
  p_acc_rate s < (1 - a) ^ Z.to_nat (n - 2).
Proof.
  intros Hc Hsut Hp a Ha n.
  destruct (tuning_rate_range s Hc Hsut) as [_ [Ha0 _]]. cbv zeta in Ha0. fold a in Ha0.
  assert (Hdue : tuning_due s = true).
  { unfold tuning_due. rewrite Hsut. destruct Hc as (Hti & _).
    destruct (Z.eqb_spec (tune_interval s) 0); [lia | reflexivity]. }
  assert (Hn : n = (1 + Zceil (ln (p_acc_rate s) / ln (1 - a)))%Z).
  { subst n. unfold tune_checkpoint. rewrite Hdue. reflexivity. }
  destruct (chain_length_least (p_acc_rate s) a Hp (conj Ha0 Ha)) as (H1 & H2 & H3).
  rewrite Hn.
  replace (1 + Zceil (ln (p_acc_rate s) / ln (1 - a)) - 1)%Z
    with (Zceil (ln (p_acc_rate s) / ln (1 - a))) by lia.
  replace (1 + Zceil (ln (p_acc_rate s) / ln (1 - a)) - 2)%Z
    with (Zceil (ln (p_acc_rate s) / ln (1 - a)) - 1)%Z by lia.
  split; [lia |]. now split.
Qed.

Lemma tuned_steps_are_least_witness :
  (2 <= n_steps (tune_checkpoint sample_kernel_tuning))%Z.
Proof.
  assert (Hc : counters_ok sample_kernel_tuning) by (unfold counters_ok; cbn; lia).
  assert (Hp : 0 < p_acc_rate sample_kernel_tuning < 1) by (cbn; lra).
  refine (proj1 (tuned_steps_are_least sample_kernel_tuning Hc eq_refl Hp _)).
  cbn. lra.
Defined.

Lemma candidate_lengths (dim : nat) (s : SMC) (q0 row q q0' : list R) :
  any_discrete s = false \/ all_discrete s = true ->
  proposal_samples_array s !! stage_sample s = Some row ->
  length row = dim ->
  length q0 = dim ->
  candidate s q0 = Ok (q, q0') ->
  length q = dim /\ length q0' = dim.
Proof.
  intros Hflags Hrow Hlen Hq0. unfold candidate, getitem. rewrite Hrow. cbn [bind].
  destruct (any_discrete s); [destruct (all_discrete s) |].
  - rewrite np_add_same_length by (rewrite !length_map; lia).
    cbn [bind]. intros [= <- <-].
    rewrite !length_map, length_zip_with, !length_map. lia.
  - destruct Hflags; discriminate.
  - rewrite np_add_same_length by (rewrite length_map; lia).
    cbn [bind]. intros [= <- <-]. rewrite length_zip_with, length_map. lia.
Qed.

Lemma mutate_position (rnd : random_stream) (s : SMC) (q0 q_new l_new : list R)
  (s' : SMC) :
  mutate rnd s q0 = Ok (q_new, l_new, s') ->
  exists q q0' : list R,
    candidate s q0 = Ok (q, q0') /\ (q_new = q \/ q_new = q0').
Proof.
  unfold mutate.
  destruct (candidate s q0) as [[q q0'] |]; [| discriminate]. cbn [bind].
  destruct (getitem _ _) as [l0 |]; [| discriminate]. cbn [bind].
  assert (Hm : forall q1 l1 s1,
             metropolis rnd s q q0' l0 = Ok (q1, l1, s1) -> q1 = q \/ q1 = q0').
  { intros q1 l1 s1. unfold metropolis.
    destruct (getitem (logp_forw s q) (llk_index s)); [| discriminate].
    destruct (getitem l0 (llk_index s)); [| discriminate].
    cbn [bind]. unfold metrop_select.
    destruct (Rlt_dec _ _); intros [= <- _ _]; [now left | now right]. }
  intros Hrun. exists q, q0'. split; [reflexivity |]. revert Hrun.
  destruct (truthy (check_bnd s)).
  - destruct (call_check_bnd _ _) as [v |]; [| discriminate]. cbn [bind].
    destruct (isfinite v).
    + destruct (metropolis rnd s q q0' l0) as [[[q1 l1] s1] |] eqn:Hrun;
        [| discriminate].
      cbn [bind]. intros [= <- _ _]. eapply Hm; reflexivity.
    + cbn [bind]. intros [= <- _ _]. now right.
  - destruct (metropolis rnd s q q0' l0) as [[[q1 l1] s1] |] eqn:Hrun;
      [| discriminate].
    cbn [bind]. intros [= <- _ _]. eapply Hm; reflexivity.
Qed.

(** X6: on a well-formed step object (bounds function in place, consistent
    tuning counters, the batch of proposal draws and the per-chain
    log-points as large as the indexes into them need, outputs that include
    the likelihood) and a position of the model's dimension, a call of
    astep raises nothing and leaves the step object well-formed; unless
    the space mixes discrete and continuous entries, the returned position
    has the model's dimension again. *)
Theorem astep_returns_on_well_formed (dim : nat) (rnd : random_stream) (s : SMC)
  (q0 : list R) :
  kernel_ok dim s ->
  stream_ok dim rnd ->
  length q0 = dim ->
  exists (q_new l_new : list R) (s' : SMC),
    astep rnd s q0 = Ok (q_new, l_new, s') /\
    kernel_ok dim s' /\
    (any_discrete s = false \/ all_discrete s = true -> length q_new = dim).
Proof.
  intros Hok Hrnd Hq0.
  destruct (astep_returns_ok dim rnd s q0 Hok Hrnd Hq0) as (q & l & s' & Hrun & Hok').
  exists q, l, s'. split; [exact Hrun |]. split; [exact Hok' |].
  intros Hflags. revert Hrun. unfold astep. destruct (stage s =? 0)%Z.
  { now intros [= <- _ _]. }
  intros Hrun. apply mutate_position in Hrun.
  destruct Hrun as (qc & q0' & Hcand & Hq).
  destruct (prepared_ok dim rnd s Hok Hrnd) as (_ & _ & Hss & Hlen & Hrows).
  destruct (prepared_fields rnd s) as (_ & _ & _ & _ & _ & _ & _ & Eany & Eall).
  cbv zeta in Hss, Hlen, Hrows, Eany, Eall.
  destruct (lookup_lt_is_Some_2
              (proposal_samples_array (draw_proposals rnd (tune_checkpoint s)))
              (stage_sample (draw_proposals rnd (tune_checkpoint s))))
    as [row Hrow]; [lia |].
  pose proof (Forall_lookup_1 _ _ _ _ Hrows Hrow) as Hrowlen. cbn in Hrowlen.
  destruct (candidate_lengths dim (draw_proposals rnd (tune_checkpoint s))
              q0 row qc q0') as [H1 H2]; try assumption.
  { now rewrite Eany, Eall. }
  destruct Hq as [-> | ->]; assumption.
Qed.

Lemma astep_returns_on_well_formed_witness :
  exists (q_new l_new : list R) (s' : SMC),
    astep sample_stream_rows sample_kernel_tuning [0; 0] = Ok (q_new, l_new, s') /\
    length q_new = 2%nat.
Proof.
  destruct (astep_returns_on_well_formed 2 sample_stream_rows sample_kernel_tuning
              [0; 0] sample_kernel_tuning_ok sample_stream_rows_ok eq_refl)
    as (q & l & s' & Hrun & _ & Hlen).
  exists q, l, s'. split; [exact Hrun |]. apply Hlen. now left.
Defined.

(** ** The constructor *)









(** ** More on systematic resampling *)

(** What resample returns when every selection point lies below some
    cumulative weight. *)
Lemma resample_run (weights : list R) (chains : nat) (u0 : R) :
  length weights = chains ->
  (0 < chains)%nat ->
  (forall u, In u (selection_points chains u0) ->
             exists c, In c (cumsum weights) /\ u <= c) ->
  exists N : list nat,
    child_counts weights chains u0 = Ok N /\
    resample weights chains u0 = Ok (spec_expand N) /\
    length N = chains /\
    sum_list N = chains /\
    N = spec_child_counts weights chains u0.
Proof.
  intros Hlen Hpos Hbound.
  destruct (count_children_spec (cumsum weights) (selection_points chains u0)
              0%nat (repeat 0%nat chains))
    as (N & Hrun & HlenN & HsumN & Hat).
  - now apply selection_points_sorted.
  - exact Hbound.
  - intros u i c _ Hi. lia.
  - now rewrite repeat_length, length_cumsum.
  - rewrite repeat_length in HlenN.
    rewrite sum_list_repeat_0 in HsumN.
    unfold selection_points in HsumN at 1. rewrite length_map, length_seq in HsumN.
    cbn [Nat.add] in HsumN.
    assert (Hexp : expand (seq 0 chains) N 0 (repeat 0%nat chains)
                   = Ok (spec_expand N)).
    { pose proof (expand_spec N (seq 0 chains) [] (repeat 0%nat chains)) as He.
      cbn [length app] in He. unfold spec_expand. rewrite HlenN. apply He.
      - apply Forall_forall. intros i Hi.
        apply list_elem_of_In, in_seq in Hi. lia.
      - rewrite repeat_length. rewrite <- HlenN at 2.
        now rewrite map_lookup_total_seq_0. }
    exists N. split; [exact Hrun |].
    split; [unfold resample, child_counts; rewrite Hrun; exact Hexp |].
    split; [exact HlenN |]. split; [exact HsumN |].
    rewrite <- (map_lookup_total_seq_0 N) at 1.
    unfold spec_child_counts. rewrite HlenN. apply map_ext. intros i.
    now rewrite Hat, lookup_total_repeat_0.
Qed.

Lemma normalised_bound (weights : list R) (chains : nat) (u0 : R) :
  weights <> [] -> np_sum weights = 1 -> u0 < 1 ->
  forall u, In u (selection_points chains u0) ->
            exists c, In c (cumsum weights) /\ u <= c.
Proof.
  intros Hne Hsum Hu0 u Hu. exists 1. split.
  - rewrite <- Hsum. unfold cumsum.
    replace (np_sum weights) with (0 + np_sum weights) by lra.
    now apply cumsum_from_total.
  - now apply (selection_points_le_1 chains u0).
Qed.

Lemma spec_expand_sorted_from (N : list nat) (n a : nat) :
  StronglySorted le (flat_map (fun i => repeat i (N !!! i)) (seq a n)).
Proof.
  revert a. induction n as [| n IH]; intros a; cbn [seq flat_map]; [constructor |].
  apply StronglySorted_app_2; [| | apply IH].
  - intros x y Hx Hy. apply list_elem_of_In, repeat_spec in Hx. subst x.
    apply list_elem_of_In, in_flat_map in Hy as (j & Hj & Hy).
    apply repeat_spec in Hy. subst y. apply in_seq in Hj. lia.
  - induction (N !!! a) as [| k IHk]; cbn [repeat]; constructor; [exact IHk |].
    apply Forall_forall. intros x Hx. apply list_elem_of_In, repeat_spec in Hx. lia.
Qed.

Lemma spec_expand_count_from (N : list nat) (n a i : nat) :
  count_occ Nat.eq_dec (flat_map (fun j => repeat j (N !!! j)) (seq a n)) i
  = if decide (a <= i < a + n)%nat then N !!! i else 0%nat.
Proof.
  revert a. induction n as [| n IH]; intros a; cbn [seq flat_map].
  - cbn. destruct (decide _); [lia | reflexivity].
  - rewrite count_occ_app, IH.
    destruct (Nat.eq_dec i a) as [-> | Hne].
    + rewrite count_occ_repeat_eq by reflexivity.
      repeat destruct (decide _); lia.
    + rewrite count_occ_repeat_neq by exact Hne.
      repeat destruct (decide _); lia.
Qed.

(** X8: for weights of length chains that sum to 1 and an offset below 1,
    the index array resample returns is non-decreasing (the copies of a
    particle are contiguous) and holds the index of particle i exactly
    N_childs[i] times. *)
Theorem resample_groups_copies (weights : list R) (chains : nat) (u0 : R) :
  length weights = chains ->
  np_sum weights = 1 ->
  u0 < 1 ->
  exists N_childs outindx : list nat,
    child_counts weights chains u0 = Ok N_childs /\
    resample weights chains u0 = Ok outindx /\
    StronglySorted le outindx /\
    forall i : nat,
      count_occ Nat.eq_dec outindx i
      = if decide (i < chains)%nat then N_childs !!! i else 0%nat.
Proof.
  intros Hlen Hsum Hu0.
  assert (Hne : weights <> []) by (intros ->; cbn in Hsum; lra).
  assert (Hpos : (0 < chains)%nat)
    by (destruct weights; [contradiction | cbn in Hlen; lia]).
  destruct (resample_run weights chains u0 Hlen Hpos
              (normalised_bound weights chains u0 Hne Hsum Hu0))
    as (N & Hc & Hr & HlenN & _).
  exists N, (spec_expand N). split; [exact Hc |]. split; [exact Hr |].
  unfold spec_expand. rewrite HlenN. split; [apply spec_expand_sorted_from |].
  intros i. rewrite spec_expand_count_from.
  repeat destruct (decide _); try lia; reflexivity.
Qed.

Lemma resample_groups_copies_witness :
  exists outindx : list nat,
    resample [1 / 4; 3 / 4] 2 (1 / 2) = Ok outindx /\ StronglySorted le outindx.
Proof.
  destruct (resample_groups_copies [1 / 4; 3 / 4] 2 (1 / 2))
    as (N & out & _ & Hr & Hs & _).
  - reflexivity.
  - cbn. lra.
  - lra.
  - exists out. split; [exact Hr | exact Hs].
Defined.

(** *** The number of children of a particle *)

Lemma np_sum_app (a b : list R) : np_sum (a ++ b) = np_sum a + np_sum b.
Proof.
  unfold np_sum. induction a as [| x a IH]; cbn [app fold_right]; lra.
Qed.

Lemma cumsum_from_lookup (l : list R) :
  forall (acc : R) (i : nat),
    (i < length l)%nat ->
    cumsum_from acc l !! i = Some (acc + np_sum (take (S i) l)).
Proof.
  induction l as [| x l IH]; intros acc i Hi; cbn [length] in Hi; [lia |].
  destruct i as [| i]; cbn [cumsum_from lookup list_lookup].
  - change (take 1 (x :: l)) with [x]. unfold np_sum. cbn [fold_right].
    f_equal. lra.
  - rewrite IH by lia. f_equal.
    change (take (S (S i)) (x :: l)) with (x :: take (S i) l).
    unfold np_sum. cbn [fold_right]. lra.
Qed.

Lemma prefix_sum_step (l : list R) (i : nat) (x : R) :
  l !! i = Some x -> np_sum (take (S i) l) = np_sum (take i l) + x.
Proof.
  intros Hx. rewrite (take_S_r l i x Hx), np_sum_app. unfold np_sum.
  cbn [fold_right]. lra.
Qed.

Lemma np_sum_nonneg (l : list R) : Forall (fun w => 0 <= w) l -> 0 <= np_sum l.
Proof.
  unfold np_sum. induction 1 as [| x l Hx _ IH]; cbn [fold_right]; lra.
Qed.

Lemma prefix_sum_mono (l : list R) :
  Forall (fun w => 0 <= w) l ->
  forall i j : nat,
    (j <= i)%nat -> np_sum (take j l) <= np_sum (take i l) <= np_sum l.
Proof.
  induction 1 as [| x l Hx Hl IH]; intros i j Hji.
  - rewrite !take_nil. unfold np_sum. cbn [fold_right]. lra.
  - pose proof (np_sum_nonneg l Hl) as Hl0.
    destruct j as [| j], i as [| i]; try lia.
    + change (take 0 (x :: l)) with (@nil R).
      unfold np_sum in *. cbn [fold_right]. lra.
    + destruct (IH i 0%nat) as [H1 H2]; [lia |]. rewrite take_0 in H1.
      change (take 0 (x :: l)) with (@nil R).
      change (take (S i) (x :: l)) with (x :: take i l).
      unfold np_sum in *. cbn [fold_right] in *. lra.
    + destruct (IH i j) as [H1 H2]; [lia |].
      change (take (S j) (x :: l)) with (x :: take j l).
      change (take (S i) (x :: l)) with (x :: take i l).
      unfold np_sum in *. cbn [fold_right] in *. lra.
Qed.

Lemma spec_bucket_intro (cum : list R) (u : R) :
  forall (i : nat) (c : R),
    cum !! i = Some c -> u <= c ->
    (forall j c', (j < i)%nat -> cum !! j = Some c' -> c' < u) ->
    spec_bucket cum u = Some i.
Proof.
  induction cum as [| c0 rest IH]; intros i c Hc Hle Hmin; [discriminate |].
  cbn [spec_bucket]. destruct i as [| i].
  - injection Hc as ->. destruct (Rle_dec u c); [reflexivity | contradiction].
  - assert (c0 < u) by (apply (Hmin 0%nat c0); [lia | reflexivity]).
    destruct (Rle_dec u c0); [lra |].
    rewrite (IH i c); [reflexivity | exact Hc | exact Hle |].
    intros j c' Hj Hc'. apply (Hmin (S j) c'); [lia | exact Hc'].
Qed.

(** With non-negative weights the bucket of a positive point is the one
    whose cumulative weights enclose it. *)
Lemma spec_bucket_iff (weights : list R) (u : R) (i : nat) :
  Forall (fun w => 0 <= w) weights ->
  (i < length weights)%nat ->
  0 < u ->
  spec_bucket (cumsum weights) u = Some i <->
  np_sum (take i weights) < u <= np_sum (take (S i) weights).
Proof.
  intros Hw Hi Hu. unfold cumsum.
  assert (Hat : forall j, (j < length weights)%nat ->
                          cumsum_from 0 weights !! j = Some (np_sum (take (S j) weights))).
  { intros j Hj. rewrite cumsum_from_lookup by exact Hj. f_equal. lra. }
  split.
  - intros Hb. apply spec_bucket_Some in Hb as [(c & Hc & Hle) Hmin].
    rewrite Hat in Hc by exact Hi. injection Hc as <-. split; [| exact Hle].
    destruct i as [| i]; [rewrite take_0; cbn; lra |].
    apply (Hmin i); [lia | apply Hat; lia].
  - intros [Hlo Hhi]. apply (spec_bucket_intro _ _ i _ (Hat i Hi) Hhi).
    intros j c' Hj Hc'. rewrite Hat in Hc' by lia. injection Hc' as <-.
    destruct (prefix_sum_mono weights Hw i (S j)) as [H1 _]; [lia |]. lra.
Qed.

Lemma filter_range_length (lo hi n : nat) :
  (lo <= hi)%nat -> (hi <= n)%nat ->
  length (filter (fun k => (lo <= k < hi)%nat) (seq 0 n)) = (hi - lo)%nat.
Proof.
  intros Hlh Hhn.
  assert (H : forall m, length (filter (fun k => (lo <= k < hi)%nat) (seq 0 m))
                        = (Nat.min hi m - Nat.min lo m)%nat).
  { induction m as [| m IH]; [cbn; lia |].
    rewrite seq_S, filter_app, length_app, IH. cbn [Nat.add].
    rewrite filter_cons, filter_nil.
    destruct (decide (lo <= m < hi)%nat); cbn [length]; lia. }
  rewrite H. lia.
Qed.

Lemma length_filter_map {A B : Type} (f : A -> B) (P : B -> Prop)
  `{!forall y, Decision (P y)} (l : list A) :
  length (filter P (map f l)) = length (filter (fun x => P (f x)) l).
Proof.
  induction l as [| x l IH]; [reflexivity |].
  cbn [map]. rewrite !filter_cons. destruct (decide (P (f x))); cbn [length]; lia.
Qed.

Lemma floor_difference (a b : R) :
  (Zfloor (b - a) <= Zfloor b - Zfloor a <= Zceil (b - a))%Z.
Proof.
  pose proof (Zfloor_bound a) as Ha. pose proof (Zfloor_bound b) as Hb.
  pose proof (Zfloor_bound (b - a)) as Hd. pose proof (Zceil_bound (b - a)) as Hc.
  split.
  - assert (H : (Zfloor a + Zfloor (b - a) <= Zfloor b)%Z); [| lia].
    apply Zfloor_lub. rewrite plus_IZR. lra.
  - assert (H : (Zfloor b < Zfloor a + 1 + Zceil (b - a))%Z); [| lia].
    apply lt_IZR. rewrite !plus_IZR. lra.
Qed.

Lemma INR_between (a b : R) (k : nat) :
  -1 < a ->
  a < INR k <= b <->
  (Z.to_nat (Zfloor a + 1) <= k < Z.to_nat (Zfloor b + 1))%nat.
Proof.
  intros Ha. pose proof (Zfloor_bound a) as Hfa. pose proof (Zfloor_bound b) as Hfb.
  assert (H0 : (0 <= Zfloor a + 1)%Z).
  { assert (H : (-1 <= Zfloor a)%Z); [| lia]. apply Zfloor_lub. lra. }
  rewrite INR_IZR_INZ. split.
  - intros [H1 H2].
    assert (Hk1 : (Zfloor a < Z.of_nat k)%Z) by (apply lt_IZR; lra).
    assert (Hk2 : (Z.of_nat k <= Zfloor b)%Z) by (apply Zfloor_lub; lra).
    lia.
  - intros [H1 H2].
    assert (Hk1 : (Zfloor a + 1 <= Z.of_nat k)%Z) by lia.
    assert (Hk2 : (Z.of_nat k <= Zfloor b)%Z) by lia.
    apply IZR_le in Hk1. apply IZR_le in Hk2. rewrite plus_IZR in Hk1. lra.
Qed.

Lemma scale_between (n x y z : R) :
  0 < n -> (x < y / n <= z <-> n * x < y <= n * z).
Proof.
  intros Hn.
  assert (Hy : y / n * n = y) by (field; lra).
  split; intros [H1 H2].
  - split.
    + rewrite <- Hy, (Rmult_comm n). now apply Rmult_lt_compat_r.
    + rewrite <- Hy, (Rmult_comm n). now apply Rmult_le_compat_r; [lra |].
  - split.
    + apply (Rmult_lt_reg_r n); [exact Hn |]. rewrite Hy. lra.
    + apply (Rmult_le_reg_r n); [exact Hn |]. rewrite Hy. lra.
Qed.

(** The number of selection points in the bucket of particle [i]. *)
Lemma child_count_formula (weights : list R) (chains : nat) (u0 : R) (i : nat) :
  length weights = chains ->
  Forall (fun w => 0 <= w) weights ->
  np_sum weights = 1 ->
  0 < u0 < 1 ->
  (i < chains)%nat ->
  Z.of_nat
    (length (filter (fun u => spec_bucket (cumsum weights) u = Some i)
               (selection_points chains u0)))
  = (Zfloor (INR chains * np_sum (take (S i) weights) - u0)
     - Zfloor (INR chains * np_sum (take i weights) - u0))%Z.
Proof.
  intros Hlen Hw Hsum Hu0 Hi.
  assert (Hn : 0 < INR chains) by (apply lt_0_INR; lia).
  set (a := INR chains * np_sum (take i weights) - u0).
  set (b := INR chains * np_sum (take (S i) weights) - u0).
  destruct (prefix_sum_mono weights Hw (S i) i) as [Hab Hb1]; [lia |].
  destruct (prefix_sum_mono weights Hw i 0%nat) as [Ha0 _]; [lia |].
  rewrite take_0 in Ha0. change (np_sum []) with 0 in Ha0. rewrite Hsum in Hb1.
  assert (Ha : -1 < a) by (subst a; nra).
  assert (Hab' : a <= b) by (subst a b; nra).
  assert (Hbn : b < INR chains) by (subst b; nra).
  pose proof (Zfloor_bound a) as Hfa. pose proof (Zfloor_bound b) as Hfb.
  assert (Hfa0 : (-1 <= Zfloor a)%Z) by (apply Zfloor_lub; lra).
  assert (Hfab : (Zfloor a <= Zfloor b)%Z) by now apply Zfloor_le.
  assert (Hfbn : (Zfloor b < Z.of_nat chains)%Z).
  { apply lt_IZR. rewrite <- INR_IZR_INZ. lra. }
  unfold selection_points. rewrite length_filter_map.
  rewrite (list_filter_iff _
             (fun k => (Z.to_nat (Zfloor a + 1) <= k < Z.to_nat (Zfloor b + 1))%nat)).
  - rewrite filter_range_length by lia. lia.
  - intros k.
    assert (Hk : 0 < (INR k + u0) / INR chains).
    { apply Rdiv_lt_0_compat; [| exact Hn]. pose proof (pos_INR k). lra. }
    rewrite (spec_bucket_iff weights _ i Hw) by (try exact Hk; lia).
    rewrite scale_between by exact Hn.
    rewrite <- (INR_between a b k Ha). subst a b. split; intros [H1 H2]; lra.
Qed.

(** X9: for non-negative weights of length chains that sum to 1 and an
    offset u0 with 0 < u0 < 1, the child count of every particle is
        floor(chains * C(i+1) - u0) - floor(chains * C(i) - u0),
    C(i) being the sum of the first i weights; so a particle of weight w
    gets floor(chains * w) or ceil(chains * w) children: none when its
    weight is 0, at least one when its weight is at least 1 / chains. *)
Theorem child_counts_follow_weights (weights : list R) (chains : nat) (u0 : R) :
  length weights = chains ->
  Forall (fun w => 0 <= w) weights ->
  np_sum weights = 1 ->
  0 < u0 < 1 ->
  exists N_childs : list nat,
    child_counts weights chains u0 = Ok N_childs /\
    forall (i : nat) (w : R),
      weights !! i = Some w ->
      Z.of_nat (N_childs !!! i)
      = (Zfloor (INR chains * np_sum (take (S i) weights) - u0)
         - Zfloor (INR chains * np_sum (take i weights) - u0))%Z /\
      (Zfloor (INR chains * w) <= Z.of_nat (N_childs !!! i) <= Zceil (INR chains * w))%Z /\
      (w = 0 -> N_childs !!! i = 0%nat) /\
      (1 / INR chains <= w -> (1 <= N_childs !!! i)%nat).
Proof.
  intros Hlen Hw Hsum Hu0.
  assert (Hne : weights <> []) by (intros ->; cbn in Hsum; lra).
  assert (Hpos : (0 < chains)%nat)
    by (destruct weights; [contradiction | cbn in Hlen; lia]).
  assert (Hn : 0 < INR chains) by (apply lt_0_INR; lia).
  destruct (resample_run weights chains u0 Hlen Hpos
              (normalised_bound weights chains u0 Hne Hsum (proj2 Hu0)))
    as (N & Hc & _ & HlenN & _ & HN).
  exists N. split; [exact Hc |]. intros i w Hi.
  assert (Hic : (i < chains)%nat) by (rewrite <- Hlen; eapply lookup_lt_Some; exact Hi).
  assert (Hat : N !!! i
                = length (filter (fun u => spec_bucket (cumsum weights) u = Some i)
                            (selection_points chains u0))).
  { rewrite HN. unfold spec_child_counts.
    apply list_lookup_total_correct.
    change (map ?f ?l) with (f <$> l). rewrite list_lookup_fmap.
    now rewrite lookup_seq_lt by lia. }
  pose proof (child_count_formula weights chains u0 i Hlen Hw Hsum Hu0 Hic) as Hf.
  rewrite <- Hat in Hf.
  pose proof (floor_difference (INR chains * np_sum (take i weights) - u0)
                (INR chains * np_sum (take (S i) weights) - u0)) as Hd.
  rewrite (prefix_sum_step weights i w Hi) in Hd.
  replace (INR chains * (np_sum (take i weights) + w) - u0
           - (INR chains * np_sum (take i weights) - u0))
    with (INR chains * w) in Hd by ring.
  rewrite <- (prefix_sum_step weights i w Hi) in Hd. rewrite <- Hf in Hd.
  split; [exact Hf |]. split; [exact Hd |]. split.
  - intros ->. rewrite Rmult_0_r in Hd.
    change 0 with (IZR 0) in Hd. rewrite ZfloorZ in Hd.
    assert (Hc0 : Zceil (IZR 0) = 0%Z) by (apply Zceil_eq; simpl; lra).
    rewrite Hc0 in Hd. lia.
  - intros Hw1.
    assert (H1 : (1 <= Zfloor (INR chains * w))%Z).
    { apply Zfloor_lub.
      apply (Rmult_le_compat_r (INR chains)) in Hw1; [| lra].
      replace (1 / INR chains * INR chains) with 1 in Hw1 by (field; lra). lra. }
    lia.
Qed.

Lemma child_counts_follow_weights_witness :
  exists N_childs : list nat,
    child_counts [1 / 4; 3 / 4] 2 (1 / 2) = Ok N_childs /\
    (1 <= N_childs !!! 1%nat)%nat.
Proof.
  destruct (child_counts_follow_weights [1 / 4; 3 / 4] 2 (1 / 2))
    as (N & Hc & Hall).
  - reflexivity.
  - repeat constructor; lra.
  - cbn. lra.
  - lra.
  - exists N. split; [exact Hc |].
    destruct (Hall 1%nat (3 / 4) eq_refl) as (_ & _ & _ & H). apply H.
    cbn. lra.
Defined.

(** *** Weights that do not reach the last selection point *)

Lemma spec_bucket_None (cum : list R) (u : R) :
  Forall (fun c => c < u) cum -> spec_bucket cum u = None.
Proof.
  induction 1 as [| c cum Hc _ IH]; cbn [spec_bucket]; [reflexivity |].
  destruct (Rle_dec u c); [lra |]. now rewrite IH.
Qed.

Lemma count_children_raises (cum : list R) (us : list R) :
  forall (j : nat) (N : list nat),
    (exists u, In u us /\ Forall (fun c => c < u) cum) ->
    count_children us cum j N = Raise IndexError.
Proof.
  induction us as [| u us IH]; intros j N (v & Hv & Hlow); [contradiction |].
  cbn [count_children]. rewrite advance_spec_bucket.
  destruct Hv as [-> | Hv].
  - rewrite spec_bucket_None; [reflexivity |].
    rewrite Forall_forall in Hlow |- *. intros c Hc.
    apply Hlow. exact (subseteq_drop j cum c Hc).
  - destruct (spec_bucket (drop j cum) u) as [k |]; [| reflexivity].
    cbn [bind]. unfold getitem. destruct (N !! (j + k)%nat); [| reflexivity].
    cbn [bind]. apply IH. now exists v.
Qed.

(** X10: when non-negative weights of length chains sum to less than the
    last selection point (chains - 1 + u0) / chains, as weights that are
    not normalised can, resample raises IndexError: the search of line 381
    runs past the last cumulative weight. *)
Theorem resample_raises_below_last_point (weights : list R) (chains : nat) (u0 : R) :
  length weights = chains ->
  (0 < chains)%nat ->
  Forall (fun w => 0 <= w) weights ->
  np_sum weights < (INR (chains - 1) + u0) / INR chains ->
  resample weights chains u0 = Raise IndexError /\
  child_counts weights chains u0 = Raise IndexError.
Proof.
  intros Hlen Hpos Hw Hsum.
  assert (Hc : child_counts weights chains u0 = Raise IndexError).
  { unfold child_counts. apply count_children_raises.
    exists ((INR (chains - 1) + u0) / INR chains). split.
    - unfold selection_points.
      apply (in_map (fun k => (INR k + u0) / INR chains)), in_seq. lia.
    - apply Forall_lookup. intros i c Hi.
      assert (Hlt : (i < length weights)%nat).
      { rewrite <- length_cumsum. eapply lookup_lt_Some. exact Hi. }
      unfold cumsum in Hi. rewrite cumsum_from_lookup in Hi by exact Hlt.
      injection Hi as <-.
      destruct (prefix_sum_mono weights Hw (S i) 0%nat) as [_ H]; [lia |]. lra. }
  split; [| exact Hc]. unfold resample. now rewrite Hc.
Qed.

Lemma resample_raises_below_last_point_witness :
  resample [1 / 4; 1 / 4] 2 (1 / 2) = Raise IndexError.
Proof.
  refine (proj1 (resample_raises_below_last_point [1 / 4; 1 / 4] 2 (1 / 2)
                   eq_refl _ _ _)).
  - lia.
  - repeat constructor; lra.
  - cbn. lra.
Defined.

(** *** The range of the effective sample size *)













(** *** A target the effective sample size cannot reach *)







Lemma importance_weights_nonempty (nb ob : R) (likelihoods w : list R) :
  importance_weights nb ob likelihoods = Ok w -> likelihoods <> [].
Proof. intros H ->. discriminate H. Qed.




(** *** The errors of calc_beta *)


(** *** The checks of sample_smc *)

Lemma prefix_refl (s : string) : String.prefix s s = true.
Proof.
  induction s as [| a s IH]; cbn [String.prefix]; [reflexivity |].
  destruct (Ascii.ascii_dec a a); [exact IH | contradiction].
Qed.

Lemma contains_refl (s : string) : contains s s = true.
Proof. destruct s; cbn [contains]; rewrite prefix_refl; reflexivity. Qed.

Lemma contains_empty (s : string) : contains s "" = true.
Proof. destruct s; reflexivity. Qed.

Lemma validate_arguments_outcome (chains : nat) (step : step_object)
  (start : option (list point)) (homepath : option string) (cores : Z) (m : model) :
  match validate_arguments chains step start homepath cores m with
  | Raise e => exists msg, e = TypeError msg
  | Ok step' =>
      step' = match start with
              | Some st => set_population st step
              | None => step
              end
  end.
Proof.
  unfold validate_arguments.
  destruct homepath as [hp |]; [| eexists; reflexivity].
  destruct ((1 <? cores)%Z && negb (Z.of_nat chains mod cores =? 0)%Z);
    [eexists; reflexivity |].
  destruct start as [st |]; cbn [bind].
  - destruct (negb (length st =? chains)%nat); cbn [bind]; [eexists; reflexivity |].
    destruct (negb (existsb _ (deterministics m))); [eexists |]; reflexivity.
  - destruct (negb (existsb _ (deterministics m))); [eexists |]; reflexivity.
Qed.

(** X14: the checks at the start of sample_smc raise exactly when there is
    no homepath, or more than one core is asked for and chains is not a
    multiple of cores, or a start population is given whose length is not
    chains, or no deterministic of the model has a name that contains the
    likelihood name; every error is a TypeError.  When they pass, the step
    object is unchanged but for the start population stored in it.  A
    likelihood name that is the name of a deterministic passes the last
    check, and so does the empty name when the model has a deterministic. *)
Theorem validate_arguments_checks (chains : nat) (step : step_object)
  (start : option (list point)) (homepath : option string) (cores : Z) (m : model) :
  ((exists e, validate_arguments chains step start homepath cores m = Raise e) <->
   homepath = None \/
   (1 < cores /\ Z.of_nat chains mod cores <> 0)%Z \/
   (exists st, start = Some st /\ length st <> chains) \/
   Forall (fun name => contains name (likelihood_name step) = false)
     (deterministics m)) /\
  (forall e, validate_arguments chains step start homepath cores m = Raise e ->
             exists msg, e = TypeError msg) /\
  (forall step', validate_arguments chains step start homepath cores m = Ok step' ->
                 step' = match start with
                         | Some st => set_population st step
                         | None => step
                         end) /\
  (In (likelihood_name step) (deterministics m) \/
   (likelihood_name step = ""%string /\ deterministics m <> []) ->
   ~ Forall (fun name => contains name (likelihood_name step) = false)
       (deterministics m)).
Proof.
  split; [apply validate_arguments_raises_iff |].
  pose proof (validate_arguments_outcome chains step start homepath cores m) as H.
  split; [| split].
  - intros e He. now rewrite He in H.
  - intros step' He. now rewrite He in H.
  - intros Hname Hall. rewrite Forall_forall in Hall.
    destruct Hname as [Hin | [Hempty Hne]].
    + apply list_elem_of_In, Hall in Hin. rewrite contains_refl in Hin. discriminate.
    + destruct (deterministics m) as [| d ds]; [contradiction |].
      specialize (Hall d (list_elem_of_here _ _)).
      rewrite Hempty, contains_empty in Hall. discriminate.
Qed.

(** *** The initial population *)

Lemma comprehension_Ok {A B : Type} (f : A -> result B) (l : list A) (ys : list B) :
  comprehension f l = Ok ys <-> Forall2 (fun x y => f x = Ok y) l ys.
Proof.
  revert ys. induction l as [| x l IH]; intros ys; cbn [comprehension].
  - split; [intros [= <-]; constructor | intros H; inversion H; reflexivity].
  - destruct (f x) as [y | e] eqn:Hx; cbn [bind].
    + destruct (comprehension f l) as [ys' | e] eqn:Hl; cbn [bind].
      * split.
        -- intros [= <-]. constructor; [exact Hx | now apply IH].
        -- intros H. inversion H as [| x' y' l' k' Hy Hk]; subst.
           apply IH in Hk. congruence.
      * split; [discriminate |].
        intros H. inversion H as [| x' y' l' k' Hy Hk]; subst.
        apply IH in Hk. discriminate.
    + split; [discriminate |].
      intros H. inversion H as [| x' y' l' k' Hy Hk]; subst. congruence.
Qed.

Lemma comprehension_Raise {A B : Type} (f : A -> result B) (l : list A) (e : exn) :
  comprehension f l = Raise e -> exists x, In x l /\ f x = Raise e.
Proof.
  induction l as [| x l IH]; cbn [comprehension]; [discriminate |].
  destruct (f x) as [y | e'] eqn:Hx; cbn [bind].
  - destruct (comprehension f l) as [ys' | e'']; cbn [bind]; [discriminate |].
    intros [= ->]. destruct (IH eq_refl) as (x' & Hin & Hx').
    exists x'. split; [now right | exact Hx'].
  - intros [= ->]. exists x. split; [now left | exact Hx].
Qed.

Lemma comprehension_total {A B : Type} (f : A -> result B) (l : list A) :
  (forall x, In x l -> exists y, f x = Ok y) ->
  exists ys, comprehension f l = Ok ys.
Proof.
  intros Hall. destruct (comprehension f l) as [ys | e] eqn:Hl; [now exists ys |].
  apply comprehension_Raise in Hl as (x & Hin & Hx).
  destruct (Hall x Hin) as (y & Hy). congruence.
Qed.

Lemma point_of_draws (draw : string -> list (list R)) (i : nat)
  (variables : list string) (p : point) :
  comprehension (fun vr => x <- getitem (snd vr) i ;; Ok (fst vr, x))
    (map (fun v => (v, draw v)) variables) = Ok p <->
  Forall2 (fun v e => fst e = v /\ draw v !! i = Some (snd e)) variables p.
Proof.
  rewrite comprehension_Ok.
  change (map ?f ?l) with (f <$> l). rewrite Forall2_fmap_l.
  split; intros H; (eapply Forall2_impl; [exact H |]); clear H;
    intros v [v' x]; unfold compose, getitem; cbn [fst snd].
  - destruct (draw v !! i); cbn [bind]; [| discriminate].
    intros [= <- <-]. now split.
  - intros [<- ->]. reflexivity.
Qed.

Lemma Forall2_fst_eq {A B : Type} (P : A -> B -> Prop) (l : list A)
  (k : list (A * B)) :
  Forall2 (fun v e => fst e = v /\ P v (snd e)) l k ->
  map fst k = l /\ forall v x, In (v, x) k -> P v x.
Proof.
  induction 1 as [| v e l k [Hv He] _ [IH1 IH2]]; cbn [map].
  - split; [reflexivity | intros ? ? []].
  - split; [now rewrite Hv, IH1 |].
    intros v' x [E | Hin]; [| now apply IH2].
    subst e. cbn [fst snd] in *. now subst v'.
Qed.

(** X15: _initial_population returns a population exactly when the prior
    draw of every variable has at least chains rows, and raises IndexError
    otherwise.  The population has chains points; point i names the
    variables in their order and holds, for every variable, row i of its
    draw. *)
Theorem initial_population_from_draws (col : collaborators) (chains : nat)
  (variables : list string) :
  ((exists pop, _initial_population col chains variables = Ok pop) <->
   forall v, In v variables -> (chains <= length (prior_random col v chains))%nat) /\
  (forall e, _initial_population col chains variables = Raise e -> e = IndexError) /\
  (forall pop,
      _initial_population col chains variables = Ok pop ->
      length pop = chains /\
      forall (i : nat) (p : point),
        pop !! i = Some p ->
        map fst p = variables /\
        forall v x, In (v, x) p -> prior_random col v chains !! i = Some x).
Proof.
  unfold _initial_population.
  set (draw := fun v => prior_random col v chains).
  change (map (fun v => (v, prior_random col v chains)) variables)
    with (map (fun v => (v, draw v)) variables).
  assert (Hpop : forall pop,
    comprehension
      (fun i => comprehension (fun vr => x <- getitem (snd vr) i ;; Ok (fst vr, x))
                  (map (fun v => (v, draw v)) variables))
      (seq 0 chains) = Ok pop ->
    length pop = chains /\
    forall (i : nat) (p : point),
      pop !! i = Some p ->
      (i < chains)%nat /\ map fst p = variables /\
      forall v x, In (v, x) p -> draw v !! i = Some x).
  { intros pop Hrun. apply comprehension_Ok in Hrun.
    pose proof (Forall2_length _ _ _ Hrun) as Hlen. rewrite length_seq in Hlen.
    split; [now symmetry |]. intros i p Hp.
    assert (Hi : (i < chains)%nat) by (rewrite Hlen; now apply lookup_lt_Some in Hp).
    pose proof (Forall2_lookup_lr _ _ _ _ _ _ Hrun (lookup_seq_lt 0 chains i Hi) Hp)
      as Hpoint.
    cbn [Nat.add] in Hpoint. apply point_of_draws in Hpoint.
    split; [exact Hi |].
    exact (Forall2_fst_eq (fun v x => draw v !! i = Some x) _ _ Hpoint). }
  split; [split | split].
  - intros (pop & Hrun) v Hv.
    destruct chains as [| n]; [lia |].
    destruct (Hpop pop Hrun) as [Hlen Hrows].
    assert (Hn : is_Some (pop !! n)) by (apply lookup_lt_is_Some_2; unfold point in *; lia).
    destruct Hn as (p & Hp). destruct (Hrows n p Hp) as (_ & Hnames & Hval).
    assert (Hin : In v (map fst p)) by now rewrite Hnames.
    apply in_map_iff in Hin as ([v' x] & Hfst & Hin). cbn [fst] in Hfst. subst v'.
    apply Hval, lookup_lt_Some in Hin. subst draw. cbn beta in Hin. lia.
  - intros Hrows. apply comprehension_total. intros i Hi.
    apply in_seq in Hi. apply comprehension_total. intros [v' d] Hin.
    apply in_map_iff in Hin as (v & [= <- <-] & Hv). cbn [fst snd].
    unfold getitem. specialize (Hrows v Hv).
    destruct (lookup_lt_is_Some_2 (draw v) i) as (x & ->); [subst draw; cbn beta; lia |].
    eexists. reflexivity.
  - intros e Hrun.
    apply comprehension_Raise in Hrun as (i & _ & Hrun).
    apply comprehension_Raise in Hrun as (vr & _ & Hrun).
    unfold getitem in Hrun. destruct (snd vr !! i); [discriminate |].
    now injection Hrun.
  - intros pop Hrun. destruct (Hpop pop Hrun) as [Hlen Hrows].
    split; [exact Hlen |]. intros i p Hp.
    destruct (Hrows i p Hp) as (_ & Hnames & Hval). now split.
Qed.

(** *** One pass of the stage loop *)

Lemma calc_covariance_cases (f : list (list R) -> list R -> cov_array)
  (arr : list (list R)) (w : list R) :
  match calc_covariance f arr w with
  | Ok c =>
      c = atleast_2d (f arr w) /\
      Forall (fun x => isfinite x = true) (cov_entries (f arr w))
  | Raise e =>
      e = ValueError "Sample covariances not valid! Likely chains is too small!" /\
      ~ Forall (fun x => isfinite x = true) (cov_entries (f arr w))
  end.
Proof.
  unfold calc_covariance.
  destruct (existsb isnan (cov_entries (f arr w))
            || existsb isinf (cov_entries (f arr w))) eqn:Hbad.
  - split; [reflexivity |]. intros Hfin.
    apply nonfinite_entry in Hbad as (x & Hx & Hinf).
    rewrite Forall_forall in Hfin. apply list_elem_of_In, Hfin in Hx. congruence.
  - split; [reflexivity |]. apply Forall_forall. intros x Hx.
    destruct (isfinite x) eqn:Hfin; [reflexivity |].
    assert (Hbad' : existsb isnan (cov_entries (f arr w))
                    || existsb isinf (cov_entries (f arr w)) = true).
    { apply nonfinite_entry. exists x. split; [now apply list_elem_of_In | exact Hfin]. }
    congruence.
Qed.

Lemma resample_in_range (weights : list R) (chains : nat) (u0 : R) :
  length weights = chains -> (0 < chains)%nat -> np_sum weights = 1 -> u0 < 1 ->
  exists idx,
    resample weights chains u0 = Ok idx /\
    length idx = chains /\
    Forall (fun i => (i < chains)%nat) idx.
Proof.
  intros Hlen Hpos Hsum Hu.
  assert (Hne : weights <> []) by (intros ->; cbn in Hlen; lia).
  destruct (resample_run weights chains u0 Hlen Hpos
              (normalised_bound weights chains u0 Hne Hsum Hu))
    as (N & _ & Hres & HN & Hsum' & _).
  exists (spec_expand N). split; [exact Hres |]. split.
  - now rewrite spec_expand_length.
  - rewrite <- HN. apply spec_expand_range.
Qed.



Lemma sample_collaborators_ok : collaborators_ok 2 sample_collaborators.
Proof.
  split; [lia |]. split; [reflexivity |]. split; [reflexivity |].
  intros k. cbn. lra.
Qed.

Lemma sample_covariance_finite : covariance_finite sample_collaborators.
Proof. intros arr w. cbn. repeat constructor. Qed.



(** *** The stage loop and the final stage *)




Lemma final_stage_unbound (col : collaborators) (chains k : nat) (step : step_object) :
  exists e,
    final_stage col chains k None step = Raise e /\
    (collaborators_ok chains col -> covariance_finite col ->
     length (likelihoods step) = chains ->
     e = UnboundLocalError "mtrace").
Proof.
  unfold final_stage. cbn [old_beta likelihoods set_kernel kernel].
  destruct (importance_weights 1 (old_beta step) (likelihoods step)) as [w | e] eqn:Hw;
    cbn [bind].
  2: { exists e. split; [reflexivity |]. intros (Hchains & _) _ Hlen.
       destruct (importance_weights_ok 1 (old_beta step) (likelihoods step))
         as (w' & Hw' & _); [| congruence].
       intros E. rewrite E in Hlen. cbn in Hlen. lia. }
  cbn [weights set_weights array_population set_kernel].
  pose proof (calc_covariance_cases (np_cov col) (array_population step) w) as Hcov.
  destruct (calc_covariance (np_cov col) (array_population step) w) as [cov | e];
    cbn [bind].
  2: { exists e. split; [reflexivity |]. intros _ Hfin _.
       destruct Hcov as [_ Hinf]. destruct Hinf. apply Hfin. }
  cbn [weights set_covariance set_weights set_kernel].
  destruct (resample w chains (rand col k)) as [idx | e] eqn:Hres; cbn [bind].
  2: { exists e. split; [reflexivity |]. intros (Hchains & _ & _ & Hrand) _ Hlen.
       pose proof (importance_weights_nonempty _ _ _ _ Hw) as Hne.
       destruct (importance_weights_ok 1 (old_beta step) (likelihoods step) Hne)
         as (w' & Hw' & _ & Hsum & Hwl).
       rewrite Hw in Hw'. injection Hw' as <-.
       destruct (resample_in_range w chains (rand col k)) as (idx & Hres' & _);
         [lia | exact Hchains | exact Hsum | apply Hrand | congruence]. }
  exists (UnboundLocalError "mtrace"). split; [reflexivity | reflexivity].
Qed.



(** X18: when sample_smc reaches the stage loop with a beta that is not
    below 1, as after loading the parameters of a finished run, the loop
    body is never run, nothing is logged, and the final stage raises: with
    well-formed collaborators it is the UnboundLocalError of line 555, where
    mtrace, which only the loop body binds, is read. *)
Theorem sample_smc_stages_skipped_loop (fuel : nat) (col : collaborators)
  (chains : nat) (step : step_object) :
  ~ beta (kernel step) < 1 ->
  exists e,
    sample_smc_stages fuel col chains step = Some ([], Raise e) /\
    (collaborators_ok chains col -> covariance_finite col ->
     length (likelihoods step) = chains ->
     e = UnboundLocalError "mtrace").
Proof.
  intros Hb. unfold sample_smc_stages.
  assert (Hloop : stage_loop fuel col chains 0 [] step = Some ([], Ok step)).
  { destruct fuel; cbn [stage_loop];
      destruct (Rlt_dec (beta (kernel step)) 1); try contradiction; reflexivity. }
  rewrite Hloop. cbn [length].
  destruct (final_stage_unbound col chains 0 step) as (e & He & Hwhich).
  exists e. rewrite He. split; [reflexivity | exact Hwhich].
Qed.

Lemma sample_smc_stages_skipped_loop_witness :
  exists e,
    sample_smc_stages 1 sample_collaborators 2
      (set_likelihoods [0; -1] (set_kernel (set_beta 1 (kernel sample_step)) sample_step))
    = Some ([], Raise e) /\
    e = UnboundLocalError "mtrace".
Proof.
  destruct (sample_smc_stages_skipped_loop 1 sample_collaborators 2
              (set_likelihoods [0; -1]
                 (set_kernel (set_beta 1 (kernel sample_step)) sample_step)))
    as (e & He & Hwhich); [cbn; lra |].
  exists e. split; [exact He |].
  apply Hwhich; [exact sample_collaborators_ok | exact sample_covariance_finite |].
  reflexivity.
Defined.
